(** * fastdns: the multi-threaded resolution engine of [fastdns/resolver.py]

    A shallow embedding of the [Resolver] class: its configuration and
    cache, the cache merge [_update_cache], the dead-host classification
    [_process_dead_hosts], the job enumeration and worker start-up of
    [_create_workers], the worker loop [_run], [clear] and [resolve].

    Python threads are modelled by a labelled transition system over a
    [World]: the [Resolver] object, a heap of [Queue] objects (so that
    [self.q] and the reference each worker holds alias the same queue),
    the worker threads, and the position of the calling thread inside
    the enqueue loop.  An event is one atomic action of one thread: a
    [put], a [get], a merge into the cache (atomic because
    [_update_cache] holds the lock for its whole body), a [task_done].
    The DNS lookup itself is external: its outcome is supplied by the
    event that ends the lookup.  Logging is left out. *)

From Stdlib Require Import Ascii String.
From stdpp Require Import gmap strings list fin_maps fin_sets sorting.

Local Open Scope Z_scope.
Local Open Scope nat_scope.

(** ** Python values *)

(** A set of IP addresses as returned by [dns_lookup]; [None] models the
    Python value [None] (a failed lookup). *)
Abbreviation ipset := (gset string).
Abbreviation lookup_result := (option (gset string)).

(** A cache value is a Python set, or [None] (tested by [_update_cache]). *)
Abbreviation cache_value := (option (gset string)).
Abbreviation Cache := (gmap string (option (gset string))).

(** A job is the tuple [(host, server)] put on the queue. *)
Abbreviation job := (string * string)%type.

(** Truthiness, as used by [if ips:], [if not ips], [if self.hostnames:]
    and [if not self.workers:]. *)
Definition truthy_set {A} `{Countable A} (s : gset A) : bool :=
  bool_decide (s ≠ ∅).

Definition truthy_value (v : cache_value) : bool :=
  match v with
  | Some s => truthy_set s
  | None => false
  end.

Definition truthy_result (res : lookup_result) : bool := truthy_value res.

Definition truthy_list {A} (l : list A) : bool :=
  match l with
  | [] => false
  | _ :: _ => true
  end.

Definition truthy_flag (f : option bool) : bool :=
  match f with
  | Some b => b
  | None => false
  end.

(** [len(l)] as a Python integer. *)
Definition len {A} (l : list A) : Z := Z.of_nat (length l).

(** [range(n)]: empty when [n <= 0]. *)
Definition range (n : Z) : list Z := Z.of_nat <$> seq 0 (Z.to_nat n).

(** ** The Resolver object *)

Record Resolver := mkResolver {
  tries : Z;
  timeout : Z;
  hostnames : list string;
  domain : string;
  nameservers : list string;
  cache : Cache;
  q : option nat;                     (* [None], or the address of a Queue *)
  workers : option bool;              (* [None] or [True] *)
  dead_hosts : option (gset string)   (* unset until [_process_dead_hosts] *)
}.

Definition set_hostnames (hs : list string) (r : Resolver) : Resolver :=
  mkResolver (tries r) (timeout r) hs (domain r) (nameservers r)
             (cache r) (q r) (workers r) (dead_hosts r).

Definition set_nameservers (ns : list string) (r : Resolver) : Resolver :=
  mkResolver (tries r) (timeout r) (hostnames r) (domain r) ns
             (cache r) (q r) (workers r) (dead_hosts r).

Definition set_tries (n : Z) (r : Resolver) : Resolver :=
  mkResolver n (timeout r) (hostnames r) (domain r) (nameservers r)
             (cache r) (q r) (workers r) (dead_hosts r).

Definition set_timeout (t : Z) (r : Resolver) : Resolver :=
  mkResolver (tries r) t (hostnames r) (domain r) (nameservers r)
             (cache r) (q r) (workers r) (dead_hosts r).

Definition set_domain (d : string) (r : Resolver) : Resolver :=
  mkResolver (tries r) (timeout r) (hostnames r) d (nameservers r)
             (cache r) (q r) (workers r) (dead_hosts r).

Definition set_cache (c : Cache) (r : Resolver) : Resolver :=
  mkResolver (tries r) (timeout r) (hostnames r) (domain r) (nameservers r)
             c (q r) (workers r) (dead_hosts r).

Definition set_q (a : option nat) (r : Resolver) : Resolver :=
  mkResolver (tries r) (timeout r) (hostnames r) (domain r) (nameservers r)
             (cache r) a (workers r) (dead_hosts r).

Definition set_workers (f : option bool) (r : Resolver) : Resolver :=
  mkResolver (tries r) (timeout r) (hostnames r) (domain r) (nameservers r)
             (cache r) (q r) f (dead_hosts r).

Definition set_dead_hosts (d : option (gset string)) (r : Resolver) : Resolver :=
  mkResolver (tries r) (timeout r) (hostnames r) (domain r) (nameservers r)
             (cache r) (q r) (workers r) d.

(** The keyword arguments of [__init__]; an absent keyword is [None]. *)
Record kwargs := mkKwargs {
  kw_tries : option Z;
  kw_timeout : option Z;
  kw_hostnames : option (list string);
  kw_domain : option string;
  kw_nameservers : option (list string)
}.

Definition no_kwargs : kwargs := mkKwargs None None None None None.

(** [kwargs.get(key, dflt)] *)
Definition kwargs_get {A} (v : option A) (dflt : A) : A := default dflt v.

Definition __init__ (kw : kwargs) : Resolver :=
  {| tries := kwargs_get (kw_tries kw) 1%Z;
     timeout := kwargs_get (kw_timeout kw) 5%Z;
     hostnames := kwargs_get (kw_hostnames kw) ["www.google.com"; "www.cisco.com"]%string;
     domain := kwargs_get (kw_domain kw) "google.com"%string;
     nameservers := kwargs_get (kw_nameservers kw) ["8.8.8.8"; "8.8.4.4"]%string;
     cache := ∅;
     q := None;
     workers := None;
     dead_hosts := None |}.

(** [clear(self, cache=True)] *)
Definition clear (cache_arg : bool) (r : Resolver) : Resolver :=
  {| tries := tries r;
     timeout := timeout r;
     hostnames := [];
     domain := domain r;
     nameservers := nameservers r;
     cache := if cache_arg then ∅ else cache r;
     q := None;
     workers := None;
     dead_hosts := dead_hosts r |}.

(** ** The cache merge *)

(** [self.cache[host].add(ip)]; the entry is a set whenever the loop of
    [_update_cache] runs, since the lines before it make it one. *)
Definition cache_add (host ip : string) (c : Cache) : Cache :=
  match c !! host with
  | Some (Some s) => <[host := Some (s ∪ {[ip]})]> c
  | _ => c
  end.

(** One iteration of [for ip in ips: if ip is not None: ...]. *)
Definition add_ip (host : string) (c : Cache) (ip : option string) : Cache :=
  match ip with
  | Some a => cache_add host a c
  | None => c
  end.

(** [_update_cache(self, host, ips, lock)], the body run while the lock
    is held.  The elements of [ips] are Python values that may be [None]. *)
Definition _update_cache (host : string) (ips : gset (option string))
    (c : Cache) : Cache :=
  if truthy_set ips then
    let c1 :=
      match c !! host with
      | None => <[host := Some ∅]> c          (* host not in self.cache *)
      | Some None => <[host := Some ∅]> c      (* self.cache[host] is None *)
      | Some (Some _) => c
      end in
    foldl (add_ip host) c1 (elements ips)
  else
    match c !! host with
    | None => <[host := Some ∅]> c
    | Some _ => c
    end.

(** The branch of [_run] after [ips = dns_lookup(...)]. *)
Definition _run_merge (host : string) (res : lookup_result) (c : Cache) : Cache :=
  match res with
  | Some ips =>
      if truthy_set ips then _update_cache host (set_map Some ips) c
      else _update_cache host ∅ c
  | None => _update_cache host ∅ c
  end.

(** [_process_dead_hosts(self)]:
    [{h for h, ips in self.cache.items() if not ips}]. *)
Definition dead_hosts_of (c : Cache) : gset string :=
  dom (filter (λ kv : string * cache_value, truthy_value kv.2 = false) c).

Definition _process_dead_hosts (r : Resolver) : Resolver * gset string :=
  let d := dead_hosts_of (cache r) in
  (set_dead_hosts (Some d) r, d).

(** ** Job enumeration: the three nested loops of [_create_workers] *)

Definition enqueue_order (r : Resolver) : list job :=
  _ ← range (tries r);
  host ← hostnames r;
  server ← nameservers r;
  [(host, server)].

(** [num_queries] of [resolve]. *)
Definition num_queries (r : Resolver) : Z :=
  (len (hostnames r) * tries r * len (nameservers r))%Z.

Definition max_workers : Z := 510%Z.

(** ** Queues and threads *)

(** The state of a [queue.Queue] of the Python library, as far as the
    program uses it: the items waiting to be taken and the counter behind
    [task_done()] and [join()]. *)
Record Queue := mkQueue {
  items : list job;
  unfinished_tasks : nat
}.

Definition new_queue : Queue := mkQueue [] 0.

(** [q.put(item)]; the queue is unbounded ([maxsize=0]), so [put] never
    blocks. *)
Definition put (j : job) (Q : Queue) : Queue :=
  mkQueue (items Q ++ [j]) (S (unfinished_tasks Q)).

(** [q.get()]: [None] while the queue is empty (the caller blocks). *)
Definition get (Q : Queue) : option (job * Queue) :=
  match items Q with
  | [] => None
  | j :: rest => Some (j, mkQueue rest (unfinished_tasks Q))
  end.

(** [q.task_done()]; the library raises [ValueError] when the counter is
    already zero, which cannot happen here: a thread calls it once for
    each item it took (see [balanced]). *)
Definition task_done (Q : Queue) : Queue :=
  mkQueue (items Q) (pred (unfinished_tasks Q)).

(** [q.join()] returns once every item put has been marked done. *)
Definition joinable (Q : Queue) : bool := Nat.eqb (unfinished_tasks Q) 0.

(** A worker thread running [_run(q, lock)]: blocked in [q.get()], inside
    [dns_lookup] for the job it took, or past [_update_cache] and about to
    call [q.task_done()]. *)
Inductive wstate :=
| Waiting
| Looking (j : job)
| Merged.

Global Instance wstate_eq_dec : EqDecision wstate.
Proof. solve_decision. Defined.

Record Thread := mkThread {
  t_queue : nat;      (* address of the queue passed to [_run] *)
  t_state : wstate
}.

(** The program state: the resolver, the queue objects by address, the
    threads started so far, and, while the calling thread is inside the
    enqueue loop of [_create_workers], its queue and the jobs not yet put. *)
Record World := mkWorld {
  self : Resolver;
  queues : list Queue;
  threads : list Thread;
  enqueuing : option (nat * list job)
}.

Definition with_self (f : Resolver → Resolver) (w : World) : World :=
  mkWorld (f (self w)) (queues w) (threads w) (enqueuing w).

(** A freshly constructed resolver, no queue and no thread yet. *)
Definition new_world (kw : kwargs) : World := mkWorld (__init__ kw) [] [] None.

(** ** Steps of the threads *)

Inductive event :=
| EPut                                     (* the caller puts its next job *)
| EGet (t : nat)                           (* worker [t] returns from [q.get()] *)
| EMerge (t : nat) (res : lookup_result)   (* worker [t]: lookup over, merge under the lock *)
| EDone (t : nat).                         (* worker [t] calls [q.task_done()] *)

(** What a step merges into the cache: the job and its lookup result. *)
Abbreviation merge := ((string * string) * option (gset string))%type.

Definition step (e : event) (w : World) : option (World * list merge) :=
  match e with
  | EPut =>
      match enqueuing w with
      | Some (a, j :: rest) =>
          Q ← queues w !! a;
          Some (mkWorld (self w) (<[a := put j Q]> (queues w)) (threads w)
                        (Some (a, rest)), [])
      | _ => None
      end
  | EGet t =>
      th ← threads w !! t;
      match t_state th with
      | Waiting =>
          Q ← queues w !! t_queue th;
          '(j, Q') ← get Q;
          Some (mkWorld (self w) (<[t_queue th := Q']> (queues w))
                        (<[t := mkThread (t_queue th) (Looking j)]> (threads w))
                        (enqueuing w), [])
      | _ => None
      end
  | EMerge t res =>
      th ← threads w !! t;
      match t_state th with
      | Looking (host, server) =>
          Some (mkWorld (set_cache (_run_merge host res (cache (self w))) (self w))
                        (queues w)
                        (<[t := mkThread (t_queue th) Merged]> (threads w))
                        (enqueuing w), [((host, server), res)])
      | _ => None
      end
  | EDone t =>
      th ← threads w !! t;
      match t_state th with
      | Merged =>
          Q ← queues w !! t_queue th;
          Some (mkWorld (self w)
                        (<[t_queue th := task_done Q]> (queues w))
                        (<[t := mkThread (t_queue th) Waiting]> (threads w))
                        (enqueuing w), [])
      | _ => None
      end
  end.

(** Running a sequence of events; [None] when some event is not enabled.
    The second component logs the merges in the order they happened. *)
Fixpoint exec (evs : list event) (w : World) : option (World * list merge) :=
  match evs with
  | [] => Some (w, [])
  | e :: evs' =>
      '(w1, l1) ← step e w;
      '(w2, l2) ← exec evs' w1;
      Some (w2, l1 ++ l2)
  end.

(** ** resolve *)

(** [_create_workers(self, q, lock, num_workers)]: start [num_workers]
    threads on the queue at address [a], each blocked in [q.get()] at
    first, then enter the enqueue loop. *)
Definition _create_workers (a : nat) (num_workers : Z) (w : World) : World :=
  mkWorld (self w) (queues w)
          (threads w ++ ((λ _, mkThread a Waiting) <$> range num_workers))
          (Some (a, enqueue_order (self w))).

(** The pool size chosen by [resolve]. *)
Definition pool_size (r : Resolver) : Z :=
  if truthy_list (hostnames r) then
    if (num_queries r >? max_workers)%Z then max_workers else num_queries r
  else max_workers.

(** [resolve] up to the point where the threads are started: if the flag
    [self.workers] is not set, a new queue is allocated and
    [_create_workers] is called with the pool size. *)
Definition resolve_enter (w : World) : World :=
  if negb (truthy_flag (workers (self w))) then
    let a := length (queues w) in                       (* q = Queue(maxsize=0) *)
    let w1 := mkWorld (self w) (queues w ++ [new_queue]) (threads w) (enqueuing w) in
    _create_workers a (pool_size (self w)) w1
  else w.

(** [self.workers = True; self.q = q], once the enqueue loop is over. *)
Definition resolve_assign (w : World) : option World :=
  match enqueuing w with
  | Some (a, []) =>
      Some (mkWorld (set_q (Some a) (set_workers (Some true) (self w)))
                    (queues w) (threads w) None)
  | Some (_, _ :: _) => None
  | None => Some w
  end.

Inductive exn :=
| AttributeError      (* [self.q.join()] with [self.q] equal to [None] *)
| SystemExit (code : Z).

Inductive outcome :=
| Returned (w : World) (c : Cache)
| Raised (e : exn) (w : World)
| Unfinished.         (* the schedule is not a complete run of the call *)

(** What the environment contributes to one call: the interleaving of
    the threads with the lookup results, and whether a KeyboardInterrupt
    reaches the caller while it waits in [join()]. *)
Record schedule := mkSchedule {
  sch_events : list event;
  sch_interrupt : bool
}.

(** [resolve(self)]: enter, let the threads run as the schedule says,
    finish the enqueue loop, then [self.q.join()], [_process_dead_hosts()]
    and [return self.cache]. *)
Definition resolve (sch : schedule) (w : World) : outcome :=
  match exec (sch_events sch) (resolve_enter w) with
  | None => Unfinished
  | Some (w1, _) =>
      match resolve_assign w1 with
      | None => Unfinished
      | Some w2 =>
          match q (self w2) with
          | None => Raised AttributeError w2
          | Some a =>
              if sch_interrupt sch then Raised (SystemExit 1) w2
              else
                match queues w2 !! a with
                | Some Q =>
                    if joinable Q then
                      let '(r, _) := _process_dead_hosts (self w2) in
                      Returned (mkWorld r (queues w2) (threads w2) (enqueuing w2))
                               (cache r)
                    else Unfinished
                | None => Unfinished
                end
          end
      end
  end.

(** The merges performed during a call. *)
Definition resolve_log (sch : schedule) (w : World) : list merge :=
  match exec (sch_events sch) (resolve_enter w) with
  | Some (_, l) => l
  | None => []
  end.

(** Number of threads a call starts. *)
Definition threads_started (w : World) : nat :=
  length (threads (resolve_enter w)) - length (threads w).

(** ** The module-level functions *)

(** *** [without_domain] and the pattern [re.escape(lit) + '$'] *)

Definition newline : Ascii.ascii := "010"%char.

(** [s.endswith(suffix)] *)
Fixpoint endswith (s suffix : string) : bool :=
  if String.eqb s suffix then true
  else match s with
       | EmptyString => false
       | String _ s' => endswith s' suffix
       end.

(** Where [$] matches: at the end of the string, and just before a
    newline that is the last character. *)
Definition at_dollar (rest : string) : bool :=
  match rest with
  | EmptyString => true
  | String c EmptyString => Ascii.eqb c newline
  | String _ (String _ _) => false
  end.

(** Whether [re.escape(lit) + '$'] matches at the start of [s]: the
    characters of [lit], then [$]. *)
Fixpoint match_here (lit s : string) : bool :=
  match lit with
  | EmptyString => at_dollar s
  | String a lit' =>
      match s with
      | EmptyString => false
      | String b s' => Ascii.eqb a b && match_here lit' s'
      end
  end.

(** [re.sub(re.escape(lit) + '$', '', s)]: the string is scanned from the
    left, every match is replaced by the empty string and the scan goes
    on behind it; [skip] counts the characters of the current match that
    are still to be dropped.  An empty match replaces nothing. *)
Fixpoint sub_scan (lit : string) (skip : nat) (s : string) : string :=
  match s with
  | EmptyString => EmptyString
  | String c s' =>
      match skip with
      | S k => sub_scan lit k s'
      | O =>
          if match_here lit s then
            match String.length lit with
            | O => String c (sub_scan lit 0 s')
            | S k => sub_scan lit k s'
            end
          else String c (sub_scan lit 0 s')
      end
  end.

Definition re_sub_end (lit s : string) : string := sub_scan lit 0 s.

(** [without_domain(host, domain)] *)
Definition without_domain (host domain : string) : string :=
  if endswith host domain then re_sub_end domain host else host.

(** *** [reverse_lookup] and [dns_lookup] *)

(** A [dns.resolver.Resolver] object, as far as the program configures
    it; [None] stands for what the library sets up by itself. *)
Record DnsResolver := mkDnsResolver {
  r_nameservers : option (list string);
  r_lifetime : option Z;
  r_domain : option string
}.

(** [dns.resolver.Resolver(configure=False)] with [r.nameservers = [server]]
    when a server is given, [dns.resolver.Resolver()] otherwise. *)
Definition resolver_for (server : option string) : DnsResolver :=
  mkDnsResolver (match server with
                 | Some s => Some [s]
                 | None => None
                 end) None None.

(** Truthiness of an optional string argument ([if domain:]). *)
Definition truthy_str (s : option string) : bool :=
  match s with
  | Some (String _ _) => true
  | _ => false
  end.

(** [reverse_lookup(ip, server=None)]; [query_PTR r ip] is the text of
    [r.query(dns.reversename.from_address(ip), "PTR")[0]], or [None] when
    any of this raises (the [except] clause then returns [None]). *)
Definition reverse_lookup (query_PTR : DnsResolver → string → option string)
    (ip : string) (server : option string) : option string :=
  let r := resolver_for server in
  match query_PTR r ip with
  | Some text => Some (re_sub_end "." text)
  | None => None
  end.

(** [dns_lookup(hostname, server=None, timeout=3, domain=None)];
    [query_A r hostname] is the list of [a.to_text()] for the answers of
    [r.query(hostname, 'A')], or [None] when the query raises. *)
Definition dns_lookup (query_A : DnsResolver → string → option (list string))
    (hostname : string) (server : option string) (timeout : Z)
    (domain : option string) : lookup_result :=
  let r := resolver_for server in
  let r := mkDnsResolver (r_nameservers r) (Some timeout) (r_domain r) in
  let r := if truthy_str domain
           then mkDnsResolver (r_nameservers r) (r_lifetime r) domain
           else r in
  match query_A r hostname with
  | None => None
  | Some answers => Some (list_to_set answers)
  end.

(** The lookup a worker performs in [_run] for the job [(host, server)]. *)
Definition _run_lookup (query_A : DnsResolver → string → option (list string))
    (r : Resolver) (j : job) : lookup_result :=
  dns_lookup query_A j.1 (Some j.2) (timeout r) (Some (domain r)).

(** *** [get_public_dns_servers] *)

(** An address object of the [ipaddress] library, as far as the program
    uses it: [ip.version] and [str(ip)]. *)
Record IPAddress := mkIPAddress {
  version : Z;
  ip_text : string
}.

(** [l[:n]]: the first [n] elements, all but the last [-n] when [n] is
    negative. *)
Definition slice_to {A} (n : Z) (l : list A) : list A :=
  if (0 <=? n)%Z then take (Z.to_nat n) l
  else take (length l - Z.to_nat (- n)) l.

(** [sorted(list(set(tokens)))]: the distinct tokens in ascending order. *)
Definition sorted_set (tokens : list string) : list string :=
  merge_sort String.le (remove_dups tokens).

Definition nameserver_url (c : string) : string :=
  ("https://public-dns.info/nameserver/" +:+ c +:+ ".txt")%string.

(** The two inner loops; [ip_address s] is [None] when [ip_address(s)]
    raises. *)
Definition add_any (ip_address : string → option IPAddress)
    (servers : gset string) (_servers : list string) : gset string :=
  foldl (λ acc server,
           match ip_address server with
           | Some ip => acc ∪ {[ip_text ip]}
           | None => acc
           end) servers _servers.

Definition add_not_v6 (ip_address : string → option IPAddress)
    (servers : gset string) (_servers : list string) : gset string :=
  foldl (λ acc server,
           match ip_address server with
           | Some ip => if negb (version ip =? 6)%Z then acc ∪ {[ip_text ip]} else acc
           | None => acc
           end) servers _servers.

(** [get_public_dns_servers(ipv6=False, max_per_country=100,
    countries=['us', 'gb'])]; [fetch url] is [requests.get(url).text.split()],
    or [None] when the request raises (that country is skipped). *)
Definition get_public_dns_servers (fetch : string → option (list string))
    (ip_address : string → option IPAddress)
    (ipv6 : bool) (max_per_country : Z) (countries : list string) : gset string :=
  foldl (λ servers c,
           match fetch (nameserver_url c) with
           | None => servers
           | Some tokens =>
               let _servers := slice_to max_per_country (sorted_set tokens) in
               if ipv6 then add_any ip_address servers _servers
               else add_not_v6 ip_address servers _servers
           end) ∅ countries.

(** * Vocabulary of the properties *)

Local Open Scope string_scope.
Local Open Scope list_scope.

(** ** Order on caches *)

(** The addresses recorded by a cache value ([None] records none). *)
Definition entry_ips (v : cache_value) : gset string := default ∅ v.

(** The addresses recorded for [host]. *)
Definition ips_at (c : Cache) (host : string) : gset string :=
  entry_ips (default None (c !! host)).

(** [v'] keeps everything [v] has; a set never turns back into [None]. *)
Definition value_le (v v' : cache_value) : Prop :=
  match v, v' with
  | Some s, Some s' => s ⊆ s'
  | Some _, None => False
  | None, _ => True
  end.

(** Every key of [c] is a key of [c'], with at least the same addresses. *)
Definition cache_le (c c' : Cache) : Prop :=
  ∀ h v, c !! h = Some v → ∃ v', c' !! h = Some v' ∧ value_le v v'.

(** Every value of the cache is a set (no [None] stored). *)
Definition all_sets (c : Cache) : Prop :=
  ∀ h v, c !! h = Some v → is_Some v.

(** ** Counting jobs *)

(** Number of occurrences of [x] in [l]. *)
Definition occurrences {A} `{EqDecision A} (x : A) (l : list A) : nat :=
  length (filter (λ y, y = x) l).

(** The job a thread is looking up, if any. *)
Definition job_of (th : Thread) : list job :=
  match t_state th with
  | Looking j => [j]
  | _ => []
  end.

(** Whether a thread holds a job taken from the queue at address [a] and
    not yet marked done. *)
Definition busy (a : nat) (th : Thread) : nat :=
  match t_state th with
  | Waiting => 0
  | _ => if decide (t_queue th = a) then 1 else 0
  end.

(** The jobs the caller has still to put. *)
Definition unput (w : World) : list job :=
  match enqueuing w with
  | Some (_, js) => js
  | None => []
  end.

(** Jobs enumerated but not merged yet: still to be put, queued, or being
    looked up. *)
Definition outstanding (w : World) : list job :=
  unput w ++ (queues w ≫= items) ++ (threads w ≫= job_of).

(** Steps still ahead of a thread before it is back in [q.get()]. *)
Definition stage (th : Thread) : nat :=
  match t_state th with
  | Waiting => 0
  | Looking _ => 2
  | Merged => 1
  end.

(** Steps still ahead of a run: four per job to put, three per queued
    job, and what each busy thread has left. *)
Definition remaining (w : World) : nat :=
  4 * length (unput w)
  + 3 * sum_list_with (λ Q, length (items Q)) (queues w)
  + sum_list_with stage (threads w).

(** ** Invariants of a run *)

(** The counter of each queue equals its queued items plus the jobs taken
    from it and not yet marked done. *)
Definition balanced (w : World) : Prop :=
  ∀ a Q, queues w !! a = Some Q →
    unfinished_tasks Q = length (items Q) + sum_list_with (busy a) (threads w).

(** Only the queue at address [a] is in use. *)
Definition only_queue (a : nat) (w : World) : Prop :=
  (∀ b js, enqueuing w = Some (b, js) → b = a)
  ∧ (∀ b Q, queues w !! b = Some Q → b ≠ a → items Q = [])
  ∧ (∀ t th, threads w !! t = Some th → t_queue th ≠ a → t_state th = Waiting).


(** Nothing is in progress: the state between two calls. *)
Definition idle (w : World) : Prop :=
  enqueuing w = None
  ∧ Forall (λ Q, items Q = [] ∧ unfinished_tasks Q = 0) (queues w)
  ∧ Forall (λ th, t_state th = Waiting) (threads w).

(** The state an engine is in between calls: nothing in progress, a set
    flag comes with a queue handle, and the cache holds sets only. *)
Definition sound (w : World) : Prop :=
  idle w
  ∧ (truthy_flag (workers (self w)) = true →
     ∃ a Q, q (self w) = Some a ∧ queues w !! a = Some Q)
  ∧ all_sets (cache (self w)).

(** ** Merges and schedules *)

(** The merge a worker performs for a logged lookup. *)
Definition apply_merge (c : Cache) (m : merge) : Cache :=
  _run_merge m.1.1 m.2 c.

(** The log in which each job gets the result [f] assigns to it. *)
Definition answers (f : job → lookup_result) (js : list job) : list merge :=
  (λ j, (j, f j)) <$> js.

(** The schedule in which the caller first puts all jobs and worker [t]
    then serves them in order, [f] giving the result of each lookup. *)
Definition sequential (t : nat) (f : job → lookup_result) (js : list job) : list event :=
  replicate (length js) EPut ++ (js ≫= λ j, [EGet t; EMerge t (f j); EDone t]).


Definition returned_cache (o : outcome) : option Cache :=
  match o with
  | Returned _ c => Some c
  | _ => None
  end.

(** ** Calls on one engine *)

(** What a caller does with a resolver: assign a configuration attribute
    (as in [r.hostnames = hosts]), call [clear], call [resolve]. *)
Inductive call :=
| Assign_hostnames (hs : list string)
| Assign_nameservers (ns : list string)
| Assign_tries (n : Z)
| Assign_timeout (t : Z)
| Assign_domain (d : string)
| Clear (cache_arg : bool)
| Resolve (sch : schedule).

(** [None] when a [resolve] does not return normally. *)
Definition do_call (k : call) (w : World) : option World :=
  match k with
  | Assign_hostnames hs => Some (with_self (set_hostnames hs) w)
  | Assign_nameservers ns => Some (with_self (set_nameservers ns) w)
  | Assign_tries n => Some (with_self (set_tries n) w)
  | Assign_timeout t => Some (with_self (set_timeout t) w)
  | Assign_domain d => Some (with_self (set_domain d) w)
  | Clear b => Some (with_self (clear b) w)
  | Resolve sch =>
      match resolve sch w with
      | Returned w' _ => Some w'
      | _ => None
      end
  end.

Fixpoint do_calls (ks : list call) (w : World) : option World :=
  match ks with
  | [] => Some w
  | k :: ks' => w1 ← do_call k w; do_calls ks' w1
  end.

(** The calls that do not reset the cache. *)
Definition keeps_cache (k : call) : bool :=
  match k with
  | Clear true => false
  | _ => true
  end.

(** Assigning all configuration attributes, as a caller does between
    [clear] and [resolve]. *)
Definition configure (hs ns : list string) (d : string) (n t : Z) (r : Resolver) : Resolver :=
  set_timeout t (set_tries n (set_domain d (set_nameservers ns (set_hostnames hs r)))).

(** ** Example engines *)

(** Two hosts, one nameserver, one try. *)
Definition ex_kwargs : kwargs :=
  mkKwargs (Some 1%Z) None (Some ["www"; "mail"]) (Some "google.com") (Some ["8.8.8.8"]).

Definition ex_world : World := new_world ex_kwargs.

(** The caller and two workers interleave; "mail" fails, "www" resolves. *)
Definition ex_schedule : schedule :=
  mkSchedule [EPut; EGet 0; EPut; EGet 1; EMerge 1 None;
              EMerge 0 (Some {["1.2.3.4"]}); EDone 0; EDone 1]
             false.

(** The threads' part of that call. *)
Definition ex_run : World * list merge :=
  default (resolve_enter ex_world, [])
          (exec (sch_events ex_schedule) (resolve_enter ex_world)).

(** The engine after that call. *)
Definition ex_after : World := default ex_world (do_calls [Resolve ex_schedule] ex_world).

(** A later session on the same engine that keeps the cache. *)
Definition ex_calls : list call :=
  [Clear false; Assign_hostnames ["www"];
   Resolve (mkSchedule [EPut; EGet 2; EMerge 2 (Some {["5.6.7.8"]}); EDone 2] false)].

Definition ex_again : World := default ex_after (do_calls ex_calls ex_after).

(** The engine gets a new host and is asked to resolve again, without
    [clear]. *)
Definition ex_stale : World :=
  default ex_after
    (do_calls [Assign_hostnames ["maps"]; Resolve (mkSchedule [] false)] ex_after).

(** A fresh session after [clear()]. *)
Definition ex_session : World :=
  with_self (configure ["maps"] ["4.2.2.2"] "google.com" 1 3 ∘ clear true) ex_after.

Definition ex_session_schedule : schedule :=
  mkSchedule [EPut; EGet 2; EMerge 2 (Some {["7.7.7.7"]}); EDone 2] false.

(** Two hosts, two nameservers, three tries: twelve jobs. *)
Definition ex_resolver : Resolver :=
  mkResolver 3 5 ["www"; "mail"] "google.com" ["8.8.8.8"; "8.8.4.4"] ∅ None None None.

Definition ex_twelve : World := mkWorld ex_resolver [] [] None.

(** Degenerate configurations. *)
Definition ex_no_hosts : World := new_world (mkKwargs None None (Some []) None None).



(** * Properties *)

(** ** The cache merge *)

Lemma value_le_refl v : value_le v v.
Proof. destruct v; simpl; set_solver. Qed.

Lemma value_le_trans v1 v2 v3 : value_le v1 v2 → value_le v2 v3 → value_le v1 v3.
Proof. destruct v1, v2, v3; simpl; try done; set_solver. Qed.

Lemma cache_le_refl c : cache_le c c.
Proof. intros h v Hv. exists v. split; [done | apply value_le_refl]. Qed.

Lemma cache_le_trans c1 c2 c3 : cache_le c1 c2 → cache_le c2 c3 → cache_le c1 c3.
Proof.
  intros H12 H23 h v Hv.
  destruct (H12 h v Hv) as (v2 & Hv2 & Hle2).
  destruct (H23 h v2 Hv2) as (v3 & Hv3 & Hle3).
  exists v3. split; [done | by eapply value_le_trans].
Qed.

Lemma cache_le_insert c host v v' :
  c !! host = v → from_option (λ x, value_le x v') True v →
  cache_le c (<[host := v']> c).
Proof.
  intros Hc Hle h x Hx. destruct (decide (h = host)) as [->|Hne].
  - exists v'. rewrite lookup_insert_eq. split; [done |].
    rewrite Hx in Hc. by subst v.
  - exists x. rewrite lookup_insert_ne by done. split; [done | apply value_le_refl].
Qed.

Lemma truthy_set_false {A} `{Countable A} (s : gset A) :
  truthy_set s = false ↔ s = ∅.
Proof.
  unfold truthy_set. rewrite bool_decide_eq_false. split.
  - intros Hn. destruct (decide (s = ∅)); [done | by destruct Hn].
  - intros -> Hn. by apply Hn.
Qed.

Lemma truthy_set_true {A} `{Countable A} (s : gset A) :
  truthy_set s = true ↔ s ≠ ∅.
Proof. unfold truthy_set. by rewrite bool_decide_eq_true. Qed.

Lemma truthy_set_empty {A} `{Countable A} : truthy_set (∅ : gset A) = false.
Proof. by apply truthy_set_false. Qed.

(** The loop of [_update_cache] adds exactly the non-[None] elements. *)
Lemma add_ip_loop host (l : list (option string)) (c : Cache) s :
  c !! host = Some (Some s) →
  foldl (add_ip host) c l = <[host := Some (s ∪ list_to_set (omap id l))]> c.
Proof.
  revert c s. induction l as [|ip l IH]; intros c s Hc; simpl.
  - rewrite (right_id_L ∅ (∪)). by rewrite insert_id.
  - destruct ip as [a|]; simpl.
    + unfold cache_add. rewrite Hc.
      rewrite (IH _ (s ∪ {[a]})) by apply lookup_insert_eq.
      rewrite insert_insert_eq. f_equal. f_equal.
      by rewrite (assoc_L (∪)).
    + by apply IH.
Qed.

(** [_update_cache] in closed form. *)
Lemma _update_cache_eq host ips c :
  _update_cache host ips c =
    if truthy_set ips then <[host := Some (ips_at c host ∪ set_omap id ips)]> c
    else match c !! host with
         | None => <[host := Some ∅]> c
         | Some _ => c
         end.
Proof.
  unfold _update_cache, ips_at. destruct (truthy_set ips); [|done].
  destruct (c !! host) as [[s|]|] eqn:Hc; simpl.
  - by rewrite (add_ip_loop host _ c s).
  - rewrite (add_ip_loop host _ _ ∅) by apply lookup_insert_eq.
    by rewrite insert_insert_eq.
  - rewrite (add_ip_loop host _ _ ∅) by apply lookup_insert_eq.
    by rewrite insert_insert_eq.
Qed.

Lemma set_omap_id_Some (s : gset string) :
  set_omap (C := gset (option string)) id (set_map (D := gset (option string)) Some s) = s.
Proof.
  apply set_eq. intros x. rewrite elem_of_set_omap. split.
  - intros (y & Hy & Hx). apply elem_of_map in Hy as (z & -> & Hz).
    simpl in Hx. by simplify_eq.
  - intros Hx. exists (Some x). split; [|done]. by apply elem_of_map_2.
Qed.

Lemma set_map_Some_truthy (s : gset string) :
  truthy_set (set_map (D := gset (option string)) Some s) = truthy_set s.
Proof.
  destruct (truthy_set s) eqn:Hs.
  - apply truthy_set_true. apply truthy_set_true in Hs.
    intros He. apply Hs. apply set_eq. intros x. split; [|set_solver].
    intros Hx. apply (elem_of_map_2 (D := gset (option string)) Some) in Hx.
    rewrite He in Hx. set_solver.
  - apply truthy_set_false in Hs. subst s. apply truthy_set_false.
    by rewrite set_map_empty.
Qed.

(** What a worker merges after a lookup, in closed form. *)
Lemma _run_merge_eq host res c :
  _run_merge host res c =
    if truthy_result res then <[host := Some (ips_at c host ∪ entry_ips res)]> c
    else match c !! host with
         | None => <[host := Some ∅]> c
         | Some _ => c
         end.
Proof.
  unfold _run_merge, truthy_result. destruct res as [ips|]; simpl.
  - destruct (truthy_set ips) eqn:Hips.
    + rewrite _update_cache_eq, set_map_Some_truthy, Hips.
      by rewrite set_omap_id_Some.
    + by rewrite _update_cache_eq, truthy_set_empty.
  - by rewrite _update_cache_eq, truthy_set_empty.
Qed.

Lemma _update_cache_other host ips c h :
  h ≠ host → _update_cache host ips c !! h = c !! h.
Proof.
  intros Hne. rewrite _update_cache_eq.
  destruct (truthy_set ips); [by rewrite lookup_insert_ne |].
  destruct (c !! host); [done | by rewrite lookup_insert_ne].
Qed.

Lemma _update_cache_le host ips c : cache_le c (_update_cache host ips c).
Proof.
  rewrite _update_cache_eq. destruct (truthy_set ips).
  - eapply cache_le_insert; [done |]. unfold ips_at.
    destruct (c !! host) as [[s|]|]; simpl; set_solver.
  - destruct (c !! host) eqn:Hc; [apply cache_le_refl |].
    by eapply cache_le_insert.
Qed.

Lemma _update_cache_all_sets host ips c :
  all_sets c → all_sets (_update_cache host ips c).
Proof.
  intros Hc h v. rewrite _update_cache_eq.
  destruct (truthy_set ips).
  - destruct (decide (h = host)) as [->|Hne].
    + rewrite lookup_insert_eq. intros [= <-]. by eexists.
    + rewrite lookup_insert_ne by done. apply Hc.
  - destruct (c !! host) eqn:Hh; [apply Hc |].
    destruct (decide (h = host)) as [->|Hne].
    + rewrite lookup_insert_eq. intros [= <-]. by eexists.
    + rewrite lookup_insert_ne by done. apply Hc.
Qed.

Lemma _run_merge_unfold host res c :
  ∃ ips, _run_merge host res c = _update_cache host ips c.
Proof.
  unfold _run_merge. destruct res as [ips|]; [|by eexists].
  destruct (truthy_set ips); by eexists.
Qed.

Lemma _run_merge_le host res c : cache_le c (_run_merge host res c).
Proof. destruct (_run_merge_unfold host res c) as [ips ->]. apply _update_cache_le. Qed.

Lemma _run_merge_all_sets host res c : all_sets c → all_sets (_run_merge host res c).
Proof.
  destruct (_run_merge_unfold host res c) as [ips ->]. apply _update_cache_all_sets.
Qed.

Lemma _run_merge_other host res c h :
  h ≠ host → _run_merge host res c !! h = c !! h.
Proof.
  destruct (_run_merge_unfold host res c) as [ips ->]. apply _update_cache_other.
Qed.

(** ** Job enumeration *)

Section occurrences.
Context {A : Type} `{EqDecision A}.
Implicit Types (x : A) (l : list A).

Lemma occurrences_nil x : occurrences x [] = 0.
Proof. done. Qed.

Lemma occurrences_cons x y l :
  occurrences x (y :: l) = (if decide (y = x) then 1 else 0) + occurrences x l.
Proof. unfold occurrences. rewrite filter_cons. by destruct (decide (y = x)). Qed.

Lemma occurrences_app x l1 l2 :
  occurrences x (l1 ++ l2) = occurrences x l1 + occurrences x l2.
Proof. unfold occurrences. by rewrite filter_app, length_app. Qed.

Lemma occurrences_pos x l : 0 < occurrences x l ↔ x ∈ l.
Proof.
  induction l as [|y l IH]; [rewrite occurrences_nil, elem_of_nil; lia |].
  rewrite occurrences_cons, elem_of_cons. destruct (decide (y = x)) as [->|Hne].
  - split; [by left | lia].
  - simpl. rewrite IH. split; [by right | intros [->|]; done].
Qed.


End occurrences.

Lemma occurrences_bind_const {A B} `{EqDecision B} (y : B) (f : A → list B)
    (l : list A) k :
  (∀ a, occurrences y (f a) = k) → occurrences y (l ≫= f) = length l * k.
Proof.
  intros Hf. induction l as [|a l IH]; [done |].
  rewrite bind_cons, occurrences_app, IH, Hf. simpl. lia.
Qed.

Lemma length_bind_const {A B} (f : A → list B) (l : list A) k :
  (∀ a, length (f a) = k) → length (l ≫= f) = length l * k.
Proof.
  intros Hf. induction l as [|a l IH]; [done |].
  rewrite bind_cons, length_app, IH, Hf. simpl. lia.
Qed.

Lemma length_range n : length (range n) = Z.to_nat n.
Proof. unfold range. by rewrite length_fmap, length_seq. Qed.

(** The jobs put for one host: one per nameserver, in order. *)
Lemma occurrences_servers (host h s : string) (ns : list string) :
  occurrences (h, s) (ns ≫= λ server, [(host, server)]) =
    if decide (host = h) then occurrences s ns else 0.
Proof.
  induction ns as [|n ns IH]; [by destruct (decide (host = h)) |].
  rewrite bind_cons, occurrences_app, IH, !occurrences_cons, occurrences_nil.
  destruct (decide (host = h)) as [->|Hne].
  - destruct (decide (n = s)) as [->|Hns].
    + by rewrite decide_True.
    + rewrite decide_False; [done | congruence].
  - rewrite decide_False; [done | congruence].
Qed.

Lemma occurrences_hosts (h s : string) (hs ns : list string) :
  occurrences (h, s) (hs ≫= λ host, ns ≫= λ server, [(host, server)]) =
    occurrences h hs * occurrences s ns.
Proof.
  induction hs as [|x hs IH]; [done |].
  rewrite bind_cons, occurrences_app, IH, occurrences_servers, occurrences_cons.
  destruct (decide (x = h)); lia.
Qed.

Lemma occurrences_enqueue_order (r : Resolver) (h s : string) :
  occurrences (h, s) (enqueue_order r) =
    Z.to_nat (tries r) * (occurrences h (hostnames r) * occurrences s (nameservers r)).
Proof.
  unfold enqueue_order.
  rewrite (occurrences_bind_const _ _ _
             (occurrences h (hostnames r) * occurrences s (nameservers r)))
    by (intros; apply occurrences_hosts).
  by rewrite length_range.
Qed.

Lemma length_enqueue_order (r : Resolver) :
  length (enqueue_order r) =
    Z.to_nat (tries r) * (length (hostnames r) * length (nameservers r)).
Proof.
  unfold enqueue_order.
  rewrite (length_bind_const _ _ (length (hostnames r) * length (nameservers r))).
  - by rewrite length_range.
  - intros i. apply length_bind_const. intros host.
    rewrite (length_bind_const _ _ 1) by done. lia.
Qed.

Lemma elem_of_enqueue_order (r : Resolver) (h s : string) :
  (h, s) ∈ enqueue_order r ↔
    (0 < tries r)%Z ∧ h ∈ hostnames r ∧ s ∈ nameservers r.
Proof.
  rewrite <- occurrences_pos, occurrences_enqueue_order.
  rewrite <- (occurrences_pos h), <- (occurrences_pos s). nia.
Qed.


(** ** Accounting of jobs along a run *)

Section list_update.
Context {A B : Type}.

Lemma bind_insert_perm (f : A → list B) (l : list A) i x y :
  l !! i = Some x →
  (<[i:=y]> l ≫= f) ++ f x ≡ₚ (l ≫= f) ++ f y.
Proof.
  intros Hi. rewrite insert_take_drop by (by eapply lookup_lt_Some).
  rewrite <- (take_drop_middle l i x Hi) at 3.
  rewrite !bind_app, !bind_cons, <- !(assoc_L (++)).
  apply Permutation_app_head.
  rewrite (Permutation_app_comm (f y)), (Permutation_app_comm (f x)).
  rewrite <- !(assoc_L (++)). apply Permutation_app_head, Permutation_app_comm.
Qed.

Lemma sum_list_with_insert (f : A → nat) (l : list A) i x y :
  l !! i = Some x →
  sum_list_with f (<[i:=y]> l) + f x = sum_list_with f l + f y.
Proof.
  intros Hi. rewrite insert_take_drop by (by eapply lookup_lt_Some).
  rewrite <- (take_drop_middle l i x Hi) at 3.
  rewrite !sum_list_with_app. simpl. lia.
Qed.
End list_update.

Lemma bind_nil_Forall {A B} (f : A → list B) (l : list A) :
  Forall (λ x, f x = []) l → l ≫= f = [].
Proof.
  induction 1 as [|x l Hx _ IH]; [done |]. by rewrite bind_cons, Hx, IH.
Qed.

Lemma sum_list_with_0 {A} (f : A → nat) (l : list A) :
  Forall (λ x, f x = 0) l → sum_list_with f l = 0.
Proof. induction 1 as [|x l Hx _ IH]; simpl; [done | lia]. Qed.

Lemma sum_list_with_0_inv {A} (f : A → nat) (l : list A) :
  sum_list_with f l = 0 → Forall (λ x, f x = 0) l.
Proof.
  induction l as [|x l IH]; simpl; intros Hs; constructor; [lia | apply IH; lia].
Qed.

(** Inversion of the three kinds of step. *)
Lemma step_put_inv w w' l :
  step EPut w = Some (w', l) →
  ∃ a j rest Q,
    enqueuing w = Some (a, j :: rest) ∧ queues w !! a = Some Q ∧ l = []
    ∧ w' = mkWorld (self w) (<[a := put j Q]> (queues w)) (threads w) (Some (a, rest)).
Proof.
  unfold step. destruct (enqueuing w) as [[a [|j rest]]|]; try done.
  destruct (queues w !! a) as [Q|] eqn:HQ; simpl; [|done].
  intros [= <- <-]. by exists a, j, rest, Q.
Qed.

Lemma step_get_inv t w w' l :
  step (EGet t) w = Some (w', l) →
  ∃ a j Q rest,
    threads w !! t = Some (mkThread a Waiting) ∧ queues w !! a = Some Q
    ∧ items Q = j :: rest ∧ l = []
    ∧ w' = mkWorld (self w) (<[a := mkQueue rest (unfinished_tasks Q)]> (queues w))
                   (<[t := mkThread a (Looking j)]> (threads w)) (enqueuing w).
Proof.
  unfold step. destruct (threads w !! t) as [[a st]|] eqn:Ht; simpl; [|done].
  destruct st; [|done..].
  destruct (queues w !! a) as [Q|] eqn:HQ; simpl; [|done].
  unfold get. destruct (items Q) as [|j rest] eqn:Hit; simpl; [done |].
  intros [= <- <-]. by exists a, j, Q, rest.
Qed.

Lemma step_merge_inv t res w w' l :
  step (EMerge t res) w = Some (w', l) →
  ∃ a host server,
    threads w !! t = Some (mkThread a (Looking (host, server)))
    ∧ l = [((host, server), res)]
    ∧ w' = mkWorld (set_cache (_run_merge host res (cache (self w))) (self w))
                   (queues w)
                   (<[t := mkThread a Merged]> (threads w)) (enqueuing w).
Proof.
  unfold step. destruct (threads w !! t) as [[a st]|] eqn:Ht; simpl; [|done].
  destruct st as [|[host server]|]; [done | | done].
  intros [= <- <-]. by exists a, host, server.
Qed.

Lemma step_done_inv t w w' l :
  step (EDone t) w = Some (w', l) →
  ∃ a Q,
    threads w !! t = Some (mkThread a Merged)
    ∧ queues w !! a = Some Q ∧ l = []
    ∧ w' = mkWorld (self w) (<[a := task_done Q]> (queues w))
                   (<[t := mkThread a Waiting]> (threads w)) (enqueuing w).
Proof.
  unfold step. destruct (threads w !! t) as [[a st]|] eqn:Ht; simpl; [|done].
  destruct st; [done | done |].
  destruct (queues w !! a) as [Q|] eqn:HQ; simpl; [|done].
  intros [= <- <-]. by exists a, Q.
Qed.

(** Case analysis on an enabled step. *)
Ltac step_cases H :=
  match type of H with
  | step ?e _ = Some _ =>
      destruct e as [|?t|?t ?res|?t];
      [ apply step_put_inv in H as (?a & ?j & ?rest & ?Q & ?Henq & ?HQ & -> & ->)
      | apply step_get_inv in H as (?a & ?j & ?Q & ?rest & ?Hth & ?HQ & ?Hit & -> & ->)
      | apply step_merge_inv in H as (?a & ?host & ?server & ?Hth & -> & ->)
      | apply step_done_inv in H as (?a & ?Q & ?Hth & ?HQ & -> & ->) ]
  end.

(** A step only ever merges into the cache; the configuration, the queue
    handle and the flag of the resolver are not touched by the threads. *)
Lemma step_self e w w' l :
  step e w = Some (w', l) →
  self w' = set_cache (foldl apply_merge (cache (self w)) l) (self w).
Proof. intros H. step_cases H; simpl; by destruct (self w). Qed.

(** Each step moves one job a stage further; none is lost or duplicated. *)
Lemma step_outstanding e w w' l :
  step e w = Some (w', l) → outstanding w ≡ₚ outstanding w' ++ l.*1.
Proof.
  intros H. step_cases H; unfold outstanding, unput; simpl.
  - rewrite Henq, (right_id_L [] (++)). simpl.
    pose proof (bind_insert_perm items (queues w) a Q (put j Q) HQ) as Hp.
    simpl in Hp.
    assert (<[a:=put j Q]> (queues w) ≫= items ≡ₚ j :: (queues w ≫= items)) as ->.
    { apply (Permutation_app_inv_r (items Q)). rewrite Hp. simpl.
      by rewrite (assoc_L (++)), <- Permutation_cons_append. }
    apply Permutation_middle.
  - rewrite (right_id_L [] (++)). apply Permutation_app_head.
    pose proof (bind_insert_perm items (queues w) a Q
                  (mkQueue rest (unfinished_tasks Q)) HQ) as Hq.
    pose proof (bind_insert_perm job_of (threads w) t (mkThread a Waiting)
                  (mkThread a (Looking j)) Hth) as Ht.
    rewrite Hit in Hq. simpl in Hq, Ht. unfold job_of in Ht at 2 4. simpl in Ht.
    rewrite (right_id_L [] (++)) in Ht. rewrite Ht.
    assert (queues w ≫= items ≡ₚ
            j :: (<[a:=mkQueue rest (unfinished_tasks Q)]> (queues w) ≫= items)) as ->.
    { apply (Permutation_app_inv_r rest). rewrite <- Hq. simpl.
      symmetry. apply Permutation_middle. }
    simpl. by rewrite (assoc_L (++)), <- Permutation_cons_append.
  - rewrite <- !(assoc_L (++)). do 2 apply Permutation_app_head.
    pose proof (bind_insert_perm job_of (threads w) t _
                  (mkThread a Merged) Hth) as Ht.
    unfold job_of in Ht at 2 4. simpl in Ht.
    rewrite (right_id_L [] (++)) in Ht. by rewrite Ht.
  - rewrite (right_id_L [] (++)). apply Permutation_app_head.
    pose proof (bind_insert_perm items (queues w) a Q (task_done Q) HQ) as Hq.
    pose proof (bind_insert_perm job_of (threads w) t _
                  (mkThread a Waiting) Hth) as Ht.
    simpl in Hq. apply Permutation_app_inv_r in Hq.
    unfold job_of in Ht at 2 4. simpl in Ht.
    rewrite !(right_id_L [] (++)) in Ht. by rewrite Hq, Ht.
Qed.

Lemma step_balanced e w w' l :
  step e w = Some (w', l) → balanced w → balanced w'.
Proof.
  intros H Hb b Q'. step_cases H; simpl.
  - destruct (decide (b = a)) as [->|Hne].
    + rewrite list_lookup_insert_eq by (by eapply lookup_lt_Some).
      intros [= <-]. simpl. rewrite length_app, (Hb a Q HQ). simpl. lia.
    + rewrite list_lookup_insert_ne by done. apply Hb.
  - pose proof (sum_list_with_insert (busy b) (threads w) t _
                  (mkThread a (Looking j)) Hth) as Hs.
    unfold busy in Hs at 2 4. simpl in Hs.
    destruct (decide (b = a)) as [->|Hne].
    + rewrite list_lookup_insert_eq by (by eapply lookup_lt_Some).
      intros [= <-]. simpl. pose proof (Hb a Q HQ) as HbQ. rewrite Hit in HbQ.
      rewrite decide_True in Hs by done. simpl in HbQ. lia.
    + rewrite list_lookup_insert_ne by done. intros HQ'.
      rewrite decide_False in Hs by done. rewrite (Hb b Q' HQ'). lia.
  - pose proof (sum_list_with_insert (busy b) (threads w) t _
                  (mkThread a Merged) Hth) as Hs.
    unfold busy in Hs at 2 4. simpl in Hs. intros HQ'. rewrite (Hb b Q' HQ'). lia.
  - pose proof (sum_list_with_insert (busy b) (threads w) t _
                  (mkThread a Waiting) Hth) as Hs.
    unfold busy in Hs at 2 4. simpl in Hs.
    destruct (decide (b = a)) as [->|Hne].
    + rewrite list_lookup_insert_eq by (by eapply lookup_lt_Some).
      intros [= <-]. simpl. pose proof (Hb a Q HQ) as HbQ.
      rewrite decide_True in Hs by done. lia.
    + rewrite list_lookup_insert_ne by done. intros HQ'.
      rewrite decide_False in Hs by done. rewrite (Hb b Q' HQ'). lia.
Qed.

Lemma step_only_queue a0 e w w' l :
  step e w = Some (w', l) → only_queue a0 w → only_queue a0 w'.
Proof.
  intros H (Henq0 & Hq0 & Ht0). step_cases H; simpl.
  - pose proof (Henq0 _ _ Henq) as ->. split; [|split]; simpl.
    + by intros b js [= <- _].
    + intros b Q' HQ' Hne. rewrite list_lookup_insert_ne in HQ' by done. eauto.
    + done.
  - destruct (decide (a = a0)) as [->|Hne].
    2:{ pose proof (Hq0 _ _ HQ Hne) as Hnil. by rewrite Hnil in Hit. }
    split; [|split]; simpl.
    + done.
    + intros b Q' HQ' Hne. rewrite list_lookup_insert_ne in HQ' by done. eauto.
    + intros t' th' Hth' Hne. destruct (decide (t' = t)) as [->|Hnt].
      * rewrite list_lookup_insert_eq in Hth' by (by eapply lookup_lt_Some).
        by simplify_eq.
      * rewrite list_lookup_insert_ne in Hth' by done. eauto.
  - destruct (decide (a = a0)) as [->|Hne].
    2:{ by pose proof (Ht0 _ _ Hth Hne). }
    split; [|split]; simpl.
    + done.
    + done.
    + intros t' th' Hth' Hne. destruct (decide (t' = t)) as [->|Hnt].
      * rewrite list_lookup_insert_eq in Hth' by (by eapply lookup_lt_Some).
        by simplify_eq.
      * rewrite list_lookup_insert_ne in Hth' by done. eauto.
  - destruct (decide (a = a0)) as [->|Hne].
    2:{ by pose proof (Ht0 _ _ Hth Hne). }
    split; [|split]; simpl.
    + done.
    + intros b Q' HQ' Hne. rewrite list_lookup_insert_ne in HQ' by done. eauto.
    + intros t' th' Hth' Hne. destruct (decide (t' = t)) as [->|Hnt].
      * rewrite list_lookup_insert_eq in Hth' by (by eapply lookup_lt_Some).
        by simplify_eq.
      * rewrite list_lookup_insert_ne in Hth' by done. eauto.
Qed.

(** A step never removes a queue or a thread. *)
Lemma step_lengths e w w' l :
  step e w = Some (w', l) →
  length (queues w') = length (queues w) ∧ length (threads w') = length (threads w).
Proof. intros H. step_cases H; simpl; by rewrite ?length_insert. Qed.

(** In an idle world every thread is blocked and nothing is left to put. *)
Lemma idle_no_step e w : idle w → step e w = None.
Proof.
  intros (Henq & Hq & Ht). destruct (step e w) as [[w' l]|] eqn:H; [|done].
  step_cases H.
  - by rewrite Henq0 in Henq.
  - rewrite Forall_lookup in Hq. destruct (Hq _ _ HQ) as [Hnil _].
    by rewrite Hnil in Hit.
  - rewrite Forall_lookup in Ht. by pose proof (Ht _ _ Hth).
  - rewrite Forall_lookup in Ht. by pose proof (Ht _ _ Hth).
Qed.

Lemma idle_balanced w : idle w → balanced w.
Proof.
  intros (_ & Hq & Ht) a Q HQ. rewrite Forall_lookup in Hq.
  destruct (Hq _ _ HQ) as [-> ->]. rewrite sum_list_with_0; [done |].
  eapply Forall_impl; [exact Ht |]. intros th Hth. unfold busy. by rewrite Hth.
Qed.

Lemma idle_outstanding w : idle w → outstanding w = [].
Proof.
  intros (Henq & Hq & Ht). unfold outstanding, unput. rewrite Henq. simpl.
  rewrite (bind_nil_Forall items), (bind_nil_Forall job_of); [done | |].
  - eapply Forall_impl; [exact Ht |]. intros th Hth. unfold job_of. by rewrite Hth.
  - eapply Forall_impl; [exact Hq |]. by intros Q [? _].
Qed.

(** ** Runs *)

Lemma exec_cons_inv e evs w w' l :
  exec (e :: evs) w = Some (w', l) →
  ∃ w1 l1 l2, step e w = Some (w1, l1) ∧ exec evs w1 = Some (w', l2) ∧ l = l1 ++ l2.
Proof.
  simpl. destruct (step e w) as [[w1 l1]|]; simpl; [|done].
  destruct (exec evs w1) as [[w2 l2]|] eqn:Hex; simpl; [|done].
  intros [= <- <-]. by exists w1, l1, l2.
Qed.

(** An invariant of the steps is an invariant of the runs. *)
Lemma exec_invariant (P : World → Prop) :
  (∀ e w w' l, step e w = Some (w', l) → P w → P w') →
  ∀ evs w w' l, exec evs w = Some (w', l) → P w → P w'.
Proof.
  intros Hstep evs. induction evs as [|e evs IH]; intros w w' l Hex HP.
  - simpl in Hex. by simplify_eq.
  - apply exec_cons_inv in Hex as (w1 & l1 & l2 & Hs & Hex & ->). eauto.
Qed.

Lemma exec_balanced evs w w' l :
  exec evs w = Some (w', l) → balanced w → balanced w'.
Proof. apply exec_invariant. apply step_balanced. Qed.

Lemma exec_only_queue a evs w w' l :
  exec evs w = Some (w', l) → only_queue a w → only_queue a w'.
Proof. apply (exec_invariant (only_queue a)). apply step_only_queue. Qed.

Lemma exec_lengths evs w w' l :
  exec evs w = Some (w', l) →
  length (queues w') = length (queues w) ∧ length (threads w') = length (threads w).
Proof.
  revert w w' l. induction evs as [|e evs IH]; intros w w' l Hex.
  - simpl in Hex. by simplify_eq.
  - apply exec_cons_inv in Hex as (w1 & l1 & l2 & Hs & Hex & ->).
    apply step_lengths in Hs as [<- <-]. eauto.
Qed.

(** The resolver after a run: the logged merges folded into its cache,
    everything else as before. *)
Lemma exec_self evs w w' l :
  exec evs w = Some (w', l) →
  self w' = set_cache (foldl apply_merge (cache (self w)) l) (self w).
Proof.
  revert w w' l. induction evs as [|e evs IH]; intros w w' l Hex.
  - simpl in Hex. simplify_eq. simpl. by destruct (self w').
  - apply exec_cons_inv in Hex as (w1 & l1 & l2 & Hs & Hex & ->).
    rewrite (IH _ _ _ Hex), (step_self _ _ _ _ Hs), foldl_app. done.
Qed.

(** The jobs outstanding before a run are those still outstanding after
    it together with those merged by it. *)
Lemma exec_outstanding evs w w' l :
  exec evs w = Some (w', l) → outstanding w ≡ₚ outstanding w' ++ l.*1.
Proof.
  revert w w' l. induction evs as [|e evs IH]; intros w w' l Hex.
  - simpl in Hex. simplify_eq. rewrite fmap_nil. by rewrite (right_id_L [] (++)).
  - apply exec_cons_inv in Hex as (w1 & l1 & l2 & Hs & Hex & ->).
    rewrite (step_outstanding _ _ _ _ Hs), (IH _ _ _ Hex), fmap_app.
    rewrite <- !(assoc_L (++)). apply Permutation_app_head, Permutation_app_comm.
Qed.

Lemma exec_idle evs w w' l : idle w → exec evs w = Some (w', l) → evs = [] ∧ w' = w ∧ l = [].
Proof.
  intros Hi. destruct evs as [|e evs]; simpl.
  - by intros [= <- <-].
  - by rewrite (idle_no_step e w Hi).
Qed.

Lemma foldl_apply_merge_le (l : list merge) (c : Cache) :
  cache_le c (foldl apply_merge c l).
Proof.
  revert c. induction l as [|m l IH]; intros c; simpl; [apply cache_le_refl |].
  eapply cache_le_trans; [|apply IH]. apply _run_merge_le.
Qed.

Lemma foldl_apply_merge_all_sets (l : list merge) (c : Cache) :
  all_sets c → all_sets (foldl apply_merge c l).
Proof.
  revert c. induction l as [|m l IH]; intros c Hc; simpl; [done |].
  apply IH. by apply _run_merge_all_sets.
Qed.

(** ** Entering [resolve] *)

Lemma resolve_enter_started w :
  truthy_flag (workers (self w)) = true → resolve_enter w = w.
Proof. unfold resolve_enter. by intros ->. Qed.

Lemma resolve_enter_fresh w :
  truthy_flag (workers (self w)) = false →
  resolve_enter w =
    mkWorld (self w) (queues w ++ [new_queue])
            (threads w ++ ((λ _, mkThread (length (queues w)) Waiting)
                             <$> range (pool_size (self w))))
            (Some (length (queues w), enqueue_order (self w))).
Proof. unfold resolve_enter. by intros ->. Qed.

Lemma threads_started_fresh w :
  truthy_flag (workers (self w)) = false →
  threads_started w = Z.to_nat (pool_size (self w)).
Proof.
  intros Hf. unfold threads_started. rewrite resolve_enter_fresh by done. simpl.
  rewrite length_app, length_fmap, length_range. lia.
Qed.

Lemma threads_started_started w :
  truthy_flag (workers (self w)) = true → threads_started w = 0.
Proof.
  intros Hf. unfold threads_started. rewrite resolve_enter_started by done. lia.
Qed.

Lemma Forall_waiting_new a (n : Z) :
  Forall (λ th, t_state th = Waiting) ((λ _, mkThread a Waiting) <$> range n).
Proof. apply Forall_fmap, Forall_true. done. Qed.

Section fresh_run.
Variable w : World.
Hypothesis Hidle : idle w.
Hypothesis Hflag : truthy_flag (workers (self w)) = false.

Let a := length (queues w).

Lemma fresh_self : self (resolve_enter w) = self w.
Proof. by rewrite resolve_enter_fresh. Qed.

Lemma fresh_outstanding : outstanding (resolve_enter w) = enqueue_order (self w).
Proof.
  destruct Hidle as (Henq & Hq & Ht).
  rewrite resolve_enter_fresh by done. unfold outstanding, unput. simpl.
  rewrite (bind_nil_Forall items), (bind_nil_Forall job_of).
  - by rewrite !(right_id_L [] (++)).
  - apply Forall_app. split.
    + eapply Forall_impl; [exact Ht |]. intros th Hth. unfold job_of. by rewrite Hth.
    + apply Forall_fmap, Forall_true. done.
  - apply Forall_app. split.
    + eapply Forall_impl; [exact Hq |]. by intros Q [? _].
    + by repeat constructor.
Qed.

Lemma fresh_waiting :
  Forall (λ th, t_state th = Waiting) (threads (resolve_enter w)).
Proof.
  destruct Hidle as (Henq & Hq & Ht).
  rewrite resolve_enter_fresh by done. simpl. apply Forall_app. split; [done |].
  apply Forall_waiting_new.
Qed.

Lemma fresh_balanced : balanced (resolve_enter w).
Proof.
  pose proof fresh_waiting as Hw. destruct Hidle as (Henq & Hq & Ht).
  intros b Q. rewrite (sum_list_with_0 (busy b)).
  2:{ eapply Forall_impl; [exact Hw |]. intros th Hth. unfold busy. by rewrite Hth. }
  rewrite resolve_enter_fresh by done. simpl. intros HQ.
  apply lookup_app_Some in HQ as [HQ | [_ HQ]].
  - rewrite Forall_lookup in Hq. by destruct (Hq _ _ HQ) as [-> ->].
  - apply list_lookup_singleton_Some in HQ as [_ <-]. done.
Qed.

Lemma fresh_only_queue : only_queue a (resolve_enter w).
Proof.
  pose proof fresh_waiting as Hw. destruct Hidle as (Henq & Hq & Ht).
  split; [|split].
  - rewrite resolve_enter_fresh by done. simpl. by intros b js [= <- _].
  - rewrite resolve_enter_fresh by done. simpl. intros b Q HQ Hne.
    apply lookup_app_Some in HQ as [HQ | [Hge HQ]].
    + rewrite Forall_lookup in Hq. by destruct (Hq _ _ HQ) as [-> _].
    + apply list_lookup_singleton_Some in HQ as [Hb _]. subst a. lia.
  - intros t th Hth _. rewrite Forall_lookup in Hw. eauto.
Qed.
End fresh_run.

Lemma step_enqueuing_addr e w w' l :
  step e w = Some (w', l) → fst <$> enqueuing w' = fst <$> enqueuing w.
Proof. intros H. step_cases H; simpl; [by rewrite Henq | done..]. Qed.

Lemma exec_enqueuing_addr evs w w' l :
  exec evs w = Some (w', l) → fst <$> enqueuing w' = fst <$> enqueuing w.
Proof.
  revert w w' l. induction evs as [|e evs IH]; intros w w' l Hex.
  - simpl in Hex. by simplify_eq.
  - apply exec_cons_inv in Hex as (w1 & l1 & l2 & Hs & Hex & ->).
    rewrite (IH _ _ _ Hex). by eapply step_enqueuing_addr.
Qed.

(** Inversion of a call that returned. *)
Lemma resolve_returned_inv sch w w' c :
  resolve sch w = Returned w' c →
  ∃ w1 l w2 a Q,
    exec (sch_events sch) (resolve_enter w) = Some (w1, l)
    ∧ resolve_log sch w = l
    ∧ resolve_assign w1 = Some w2
    ∧ q (self w2) = Some a
    ∧ sch_interrupt sch = false
    ∧ queues w2 !! a = Some Q
    ∧ unfinished_tasks Q = 0
    ∧ c = cache (self w2)
    ∧ w' = mkWorld (set_dead_hosts (Some (dead_hosts_of c)) (self w2))
                   (queues w2) (threads w2) (enqueuing w2).
Proof.
  unfold resolve, resolve_log.
  destruct (exec (sch_events sch) (resolve_enter w)) as [[w1 l]|] eqn:Hex; [|done].
  destruct (resolve_assign w1) as [w2|] eqn:Has; [|done].
  destruct (q (self w2)) as [a|] eqn:Hq; [|done].
  destruct (sch_interrupt sch) eqn:Hint; [done |].
  destruct (queues w2 !! a) as [Q|] eqn:HQ; [|done].
  unfold joinable. destruct (Nat.eqb_spec (unfinished_tasks Q) 0) as [H0|]; [|done].
  simpl. intros [= <- <-]. exists w1, l, w2, a, Q. by destruct (self w2).
Qed.

(** A call never touches the cache except through the logged merges. *)
Lemma resolve_assign_cache w w2 :
  resolve_assign w = Some w2 → cache (self w2) = cache (self w).
Proof.
  unfold resolve_assign. destruct (enqueuing w) as [[a [|j js]]|]; try done.
  - by intros [= <-].
  - by intros [= <-].
Qed.

Lemma resolve_cache sch w w' c :
  resolve sch w = Returned w' c →
  c = foldl apply_merge (cache (self w)) (resolve_log sch w) ∧ cache (self w') = c.
Proof.
  intros H. apply resolve_returned_inv in H
    as (w1 & l & w2 & a & Q & Hex & -> & Has & Hq & Hint & HQ & HQ0 & -> & ->).
  split; [|done]. rewrite (resolve_assign_cache _ _ Has), (exec_self _ _ _ _ Hex).
  simpl. unfold resolve_enter.
  destruct (negb (truthy_flag (workers (self w)))); done.
Qed.

(** ** A call that starts a run *)

(** When the call returns, every enumerated job has been merged exactly
    once and the world is idle again. *)
Lemma resolve_fresh_returned w sch w' c :
  idle w → truthy_flag (workers (self w)) = false →
  resolve sch w = Returned w' c →
  (resolve_log sch w).*1 ≡ₚ enqueue_order (self w)
  ∧ idle w'
  ∧ self w' =
      set_dead_hosts (Some (dead_hosts_of c))
        (set_q (Some (length (queues w)))
           (set_workers (Some true) (set_cache c (self w))))
  ∧ length (queues w') = S (length (queues w))
  ∧ length (threads w') = length (threads w) + Z.to_nat (pool_size (self w)).
Proof.
  intros Hidle Hflag H.
  pose proof (resolve_cache _ _ _ _ H) as [Hc _].
  apply resolve_returned_inv in H
    as (w1 & l & w2 & a & Q & Hex & Hlog & Has & Hq & Hint & HQ & HQ0 & Hc2 & ->).
  rewrite Hlog in *.
  pose proof (exec_balanced _ _ _ _ Hex (fresh_balanced w Hidle Hflag)) as Hbal.
  pose proof (exec_only_queue _ _ _ _ _ Hex (fresh_only_queue w Hidle Hflag)) as Honly.
  pose proof (exec_outstanding _ _ _ _ Hex) as Hout.
  pose proof (exec_enqueuing_addr _ _ _ _ Hex) as Haddr.
  pose proof (exec_self _ _ _ _ Hex) as Hself.
  pose proof (exec_lengths _ _ _ _ Hex) as [Hlq Hlt].
  rewrite fresh_outstanding in Hout by done.
  rewrite fresh_self in Hself by done.
  rewrite resolve_enter_fresh in Haddr, Hlq, Hlt by done. simpl in Haddr, Hlq, Hlt.
  unfold resolve_assign in Has.
  destruct (enqueuing w1) as [[b [|j js]]|] eqn:Henq; try done.
  simpl in Haddr. injection Haddr as ->. injection Has as <-.
  simpl in Hq, HQ. injection Hq as <-.
  destruct Honly as (_ & Hoq & Hot).
  pose proof (Hbal _ _ HQ) as HbQ. rewrite HQ0 in HbQ.
  assert (items Q = []) as HitQ by (apply length_zero_iff_nil; lia).
  assert (Forall (λ th, t_state th = Waiting) (threads w1)) as Hwait.
  { apply Forall_lookup. intros t th Hth.
    destruct (decide (t_queue th = length (queues w))) as [Heq|Hne]; [|eauto].
    assert (sum_list_with (busy (length (queues w))) (threads w1) = 0) as Hs by lia.
    apply sum_list_with_0_inv in Hs. rewrite Forall_lookup in Hs.
    specialize (Hs _ _ Hth). unfold busy in Hs.
    destruct (t_state th); [done | by rewrite decide_True in Hs..]. }
  assert (∀ b, sum_list_with (busy b) (threads w1) = 0) as Hbusy.
  { intros b. apply sum_list_with_0. eapply Forall_impl; [exact Hwait |].
    intros th Hth. unfold busy. by rewrite Hth. }
  assert (Forall (λ Q, items Q = [] ∧ unfinished_tasks Q = 0) (queues w1)) as Hqs.
  { apply Forall_lookup. intros b Q' HQ'.
    assert (items Q' = []) as Hit.
    { destruct (decide (b = length (queues w))) as [->|Hne]; [|eauto].
      rewrite HQ in HQ'. by simplify_eq. }
    split; [done |]. rewrite (Hbal _ _ HQ'), Hit, Hbusy. done. }
  split; [|split; [|split; [|split]]].
  - rewrite Hout. unfold outstanding, unput. rewrite Henq. simpl.
    rewrite (bind_nil_Forall items), (bind_nil_Forall job_of); [done | |].
    + eapply Forall_impl; [exact Hwait |]. intros th Hth. unfold job_of. by rewrite Hth.
    + eapply Forall_impl; [exact Hqs |]. by intros Q' [? _].
  - by split; [|split].
  - simpl. rewrite Hc2. simpl. rewrite Hself. by destruct (self w).
  - simpl. rewrite Hlq, length_app. simpl. lia.
  - simpl. rewrite Hlt, length_app, length_fmap, length_range. done.
Qed.

(** ** A call on an engine whose flag is already set *)

Lemma resolve_started_returned w sch w' c :
  idle w → truthy_flag (workers (self w)) = true →
  resolve sch w = Returned w' c →
  sch_events sch = [] ∧ resolve_log sch w = []
  ∧ c = cache (self w)
  ∧ w' = with_self (set_dead_hosts (Some (dead_hosts_of (cache (self w))))) w.
Proof.
  intros Hidle Hflag H.
  apply resolve_returned_inv in H
    as (w1 & l & w2 & a & Q & Hex & Hlog & Has & Hq & Hint & HQ & HQ0 & Hc2 & ->).
  rewrite resolve_enter_started in Hex by done.
  destruct (exec_idle _ _ _ _ Hidle Hex) as (Hevs & -> & ->).
  destruct Hidle as (Henq & _). unfold resolve_assign in Has. rewrite Henq in Has.
  injection Has as <-. subst c. by repeat split.
Qed.

(** Both cases: a returned call leaves an idle world with the flag set and
    a drained queue behind [self.q]. *)
Lemma resolve_returned_idle w sch w' c :
  idle w → resolve sch w = Returned w' c →
  idle w' ∧ truthy_flag (workers (self w')) = true
  ∧ (∃ a Q, q (self w') = Some a ∧ queues w' !! a = Some Q)
  ∧ dead_hosts (self w') = Some (dead_hosts_of (cache (self w')))
  ∧ cache (self w') = c.
Proof.
  intros Hidle H. pose proof (resolve_cache _ _ _ _ H) as [_ Hc].
  destruct (truthy_flag (workers (self w))) eqn:Hflag.
  - destruct (resolve_started_returned _ _ _ _ Hidle Hflag H) as (_ & _ & Hc' & Hw').
    apply resolve_returned_inv in H
      as (w1 & l & w2 & a & Q & Hex & Hlog & Has & Hq & Hint & HQ & HQ0 & Hc2 & Hw2).
    rewrite resolve_enter_started in Hex by done.
    destruct (exec_idle _ _ _ _ Hidle Hex) as (Hevs & -> & ->).
    pose proof Hidle as (Henq & _). unfold resolve_assign in Has. rewrite Henq in Has.
    injection Has as <-. subst w'. simpl. split; [done |].
    split; [done |]. split; [by exists a, Q |]. by subst c.
  - destruct (resolve_fresh_returned _ _ _ _ Hidle Hflag H)
      as (_ & Hidle' & Hself & Hlen & _).
    split; [done |]. rewrite Hself. simpl. split; [done |]. split; [|done].
    exists (length (queues w)).
    destruct (lookup_lt_is_Some_2 (queues w') (length (queues w))) as [Q HQ]; [lia |].
    by exists Q.
Qed.

(** ** The cache as the fold of the logged merges *)

Lemma truthy_result_false res : truthy_result res = false → entry_ips res = ∅.
Proof.
  destruct res as [s|]; simpl; [|done]. intros Hs. by apply truthy_set_false in Hs.
Qed.

Lemma ips_at_insert c host s h :
  ips_at (<[host := Some s]> c) h = if decide (host = h) then s else ips_at c h.
Proof.
  unfold ips_at. destruct (decide (host = h)) as [->|Hne].
  - by rewrite lookup_insert_eq.
  - by rewrite lookup_insert_ne.
Qed.

Lemma _run_merge_ips host res c h :
  ips_at (_run_merge host res c) h =
    if decide (host = h) then ips_at c h ∪ entry_ips res else ips_at c h.
Proof.
  rewrite _run_merge_eq. destruct (truthy_result res) eqn:Hres.
  - rewrite ips_at_insert. by destruct (decide (host = h)) as [->|].
  - rewrite (truthy_result_false _ Hres), (right_id_L ∅ (∪)).
    destruct (c !! host) eqn:Hc; [by destruct (decide (host = h)) |].
    rewrite ips_at_insert. destruct (decide (host = h)) as [<-|]; [|done].
    unfold ips_at. by rewrite Hc.
Qed.

Lemma _run_merge_dom host res c : dom (_run_merge host res c) = {[host]} ∪ dom c.
Proof.
  rewrite _run_merge_eq. destruct (truthy_result res).
  - by rewrite dom_insert_L.
  - destruct (c !! host) eqn:Hc; [|by rewrite dom_insert_L].
    apply (elem_of_dom_2 (D := gset string)) in Hc. set_solver.
Qed.

(** A failed lookup leaves an existing entry as it is. *)
Lemma _run_merge_failed host res c v :
  truthy_result res = false → c !! host = Some v → _run_merge host res c = c.
Proof. intros Hres Hc. by rewrite _run_merge_eq, Hres, Hc. Qed.

Lemma _run_merge_failed_new host res c :
  truthy_result res = false → c !! host = None →
  _run_merge host res c = <[host := Some ∅]> c.
Proof. intros Hres Hc. by rewrite _run_merge_eq, Hres, Hc. Qed.

(** The addresses recorded for [h] after a run: those recorded before and
    those returned by the lookups of the jobs of [h]. *)
Lemma foldl_apply_merge_ips (l : list merge) (c : Cache) h ip :
  ip ∈ ips_at (foldl apply_merge c l) h ↔
    ip ∈ ips_at c h ∨ ∃ s res, ((h, s), res) ∈ l ∧ ip ∈ entry_ips res.
Proof.
  revert c. induction l as [|[[host s] res] l IH]; intros c; simpl.
  - split; [by left |]. intros [? | (s & res & Hin & _)]; [done |].
    by apply elem_of_nil in Hin.
  - rewrite IH. unfold apply_merge. simpl. rewrite _run_merge_ips.
    destruct (decide (host = h)) as [->|Hne].
    + rewrite elem_of_union. split.
      * intros [[Hip|Hip] | (s' & res' & Hin & Hip)]; [by left | right | right].
        -- exists s, res. split; [apply list_elem_of_here | done].
        -- exists s', res'. split; [by apply list_elem_of_further | done].
      * intros [Hip | (s' & res' & Hin & Hip)]; [by left; left |].
        apply elem_of_cons in Hin as [Heq | Hin].
        -- simplify_eq. by left; right.
        -- right. by exists s', res'.
    + split.
      * intros [Hip | (s' & res' & Hin & Hip)]; [by left | right].
        exists s', res'. split; [by apply list_elem_of_further | done].
      * intros [Hip | (s' & res' & Hin & Hip)]; [by left |].
        apply elem_of_cons in Hin as [Heq | Hin]; [by simplify_eq |].
        right. by exists s', res'.
Qed.

(** The keys after a run: those present before and the hosts of the jobs. *)
Lemma foldl_apply_merge_dom (l : list merge) (c : Cache) h :
  h ∈ dom (foldl apply_merge c l) ↔ h ∈ dom c ∨ ∃ s, (h, s) ∈ l.*1.
Proof.
  revert c. induction l as [|[[host s] res] l IH]; intros c; simpl.
  - split; [by left |]. intros [? | (s & Hin)]; [done |]. by apply elem_of_nil in Hin.
  - rewrite IH. unfold apply_merge. simpl. rewrite _run_merge_dom.
    rewrite elem_of_union, elem_of_singleton. split.
    + intros [[-> | Hd] | (s' & Hin)]; [right | by left | right].
      * exists s. apply list_elem_of_here.
      * exists s'. by apply list_elem_of_further.
    + intros [Hd | (s' & Hin)]; [by left; right |].
      apply elem_of_cons in Hin as [Heq | Hin]; [simplify_eq; by left; left |].
      right. by exists s'.
Qed.

(** Failed lookups never change an entry that exists. *)
Lemma foldl_apply_merge_failed (l : list merge) (c : Cache) host v :
  c !! host = Some v →
  (∀ s res, ((host, s), res) ∈ l → truthy_result res = false) →
  foldl apply_merge c l !! host = Some v.
Proof.
  revert c. induction l as [|[[h s] res] l IH]; intros c Hc Hfail; simpl; [done |].
  apply IH.
  - unfold apply_merge. simpl. destruct (decide (h = host)) as [->|Hne].
    + rewrite (_run_merge_failed _ _ _ v); [done | | done].
      apply (Hfail s). apply list_elem_of_here.
    + by rewrite _run_merge_other.
  - intros s' res' Hin. apply (Hfail s'). by apply list_elem_of_further.
Qed.

(** A host that is not in the cache and whose lookups all fail ends up
    with the empty set, as soon as one of its jobs is merged. *)
Lemma foldl_apply_merge_dead (l : list merge) (c : Cache) host :
  c !! host = None →
  (∀ s res, ((host, s), res) ∈ l → truthy_result res = false) →
  (∃ s, (host, s) ∈ l.*1) →
  foldl apply_merge c l !! host = Some (Some ∅).
Proof.
  revert c. induction l as [|[[h s] res] l IH]; intros c Hc Hfail [s0 Hin]; simpl.
  - by apply elem_of_nil in Hin.
  - assert (∀ s' res', ((host, s'), res') ∈ l → truthy_result res' = false) as Hfail'.
    { intros s' res' Hin'. apply (Hfail s'). by apply list_elem_of_further. }
    unfold apply_merge at 2. simpl. destruct (decide (h = host)) as [->|Hne].
    + apply foldl_apply_merge_failed; [|done].
      rewrite _run_merge_failed_new; [apply lookup_insert_eq | | done].
      apply (Hfail s). apply list_elem_of_here.
    + apply IH; [by rewrite _run_merge_other | done |].
      simpl in Hin. apply elem_of_cons in Hin as [Heq | Hin]; [by simplify_eq |].
      by exists s0.
Qed.

(** ** The dead hosts *)

Lemma elem_of_dead_hosts_of (c : Cache) h :
  h ∈ dead_hosts_of c ↔ ∃ v, c !! h = Some v ∧ truthy_value v = false.
Proof.
  unfold dead_hosts_of. rewrite elem_of_dom. unfold is_Some.
  split; intros [v Hv]; exists v.
  - by apply map_lookup_filter_Some in Hv.
  - by apply map_lookup_filter_Some.
Qed.

Lemma elem_of_dead_hosts_of_sets (c : Cache) h :
  all_sets c → h ∈ dead_hosts_of c ↔ c !! h = Some (Some ∅).
Proof.
  intros Hc. rewrite elem_of_dead_hosts_of. split.
  - intros (v & Hv & Hf). destruct (Hc _ _ Hv) as [s ->]. simpl in Hf.
    apply truthy_set_false in Hf. by subst s.
  - intros Hv. exists (Some ∅). split; [done |]. simpl. apply truthy_set_empty.
Qed.

(** ** Every call that starts a run can return *)

Lemma exec_app evs1 evs2 w :
  exec (evs1 ++ evs2) w =
    '(w1, l1) ← exec evs1 w; '(w2, l2) ← exec evs2 w1; Some (w2, l1 ++ l2).
Proof.
  revert w. induction evs1 as [|e evs1 IH]; intros w; simpl.
  - destruct (exec evs2 w) as [[w2 l2]|]; done.
  - destruct (step e w) as [[w1 l1]|]; simpl; [|done]. rewrite IH.
    destruct (exec evs1 w1) as [[w2 l2]|]; simpl; [|done].
    destruct (exec evs2 w2) as [[w3 l3]|]; simpl; [|done].
    by rewrite (assoc_L (++)).
Qed.

Lemma exec_puts (js : list job) : ∀ w a Q,
  enqueuing w = Some (a, js) → queues w !! a = Some Q →
  exec (replicate (length js) EPut) w =
    Some (mkWorld (self w)
            (<[a := mkQueue (items Q ++ js) (unfinished_tasks Q + length js)]> (queues w))
            (threads w) (Some (a, [])), []).
Proof.
  induction js as [|j js IH]; intros w a Q Henq HQ; simpl.
  - rewrite (right_id_L [] (++)), Nat.add_0_r. destruct Q as [it n]. simpl.
    rewrite list_insert_id by done. destruct w. simpl in *. by subst.
  - rewrite Henq. simpl. rewrite HQ. simpl.
    rewrite (IH _ a (put j Q)); simpl.
    + rewrite list_insert_insert_eq, <- (assoc_L (++)). simpl.
      by rewrite Nat.add_succ_r.
    + done.
    + apply list_lookup_insert_eq. by eapply lookup_lt_Some.
Qed.

Lemma step_get_eq w t a j rest n :
  threads w !! t = Some (mkThread a Waiting) →
  queues w !! a = Some (mkQueue (j :: rest) n) →
  step (EGet t) w =
    Some (mkWorld (self w) (<[a := mkQueue rest n]> (queues w))
                  (<[t := mkThread a (Looking j)]> (threads w)) (enqueuing w), []).
Proof. intros Hth HQ. unfold step. rewrite Hth. simpl. by rewrite HQ. Qed.

Lemma step_merge_eq w t a host server res :
  threads w !! t = Some (mkThread a (Looking (host, server))) →
  step (EMerge t res) w =
    Some (mkWorld (set_cache (_run_merge host res (cache (self w))) (self w))
                  (queues w)
                  (<[t := mkThread a Merged]> (threads w)) (enqueuing w),
          [((host, server), res)]).
Proof. intros Hth. unfold step. by rewrite Hth. Qed.

Lemma step_done_eq w t a Q :
  threads w !! t = Some (mkThread a Merged) →
  queues w !! a = Some Q →
  step (EDone t) w =
    Some (mkWorld (self w) (<[a := task_done Q]> (queues w))
                  (<[t := mkThread a Waiting]> (threads w)) (enqueuing w), []).
Proof. intros Hth HQ. unfold step. rewrite Hth. simpl. by rewrite HQ. Qed.

Lemma exec_serve (f : job → lookup_result) (js : list job) : ∀ w a t n,
  threads w !! t = Some (mkThread a Waiting) →
  queues w !! a = Some (mkQueue js n) →
  exec (js ≫= λ j, [EGet t; EMerge t (f j); EDone t]) w =
    Some (mkWorld (set_cache (foldl apply_merge (cache (self w)) (answers f js)) (self w))
            (<[a := mkQueue [] (n - length js)]> (queues w))
            (threads w) (enqueuing w), answers f js).
Proof.
  induction js as [|[host server] js IH]; intros w a t n Hth HQ.
  - simpl. rewrite Nat.sub_0_r, list_insert_id by done.
    destruct w as [r qs ths enq]. simpl. by destruct r.
  - rewrite bind_cons.
    change ([EGet t; EMerge t (f (host, server)); EDone t] ++ ?x)
      with (EGet t :: EMerge t (f (host, server)) :: EDone t :: x).
    assert (t < length (threads w)) as Hlt by (by eapply lookup_lt_Some).
    assert (a < length (queues w)) as Hla by (by eapply lookup_lt_Some).
    cbn [exec]. rewrite (step_get_eq _ _ _ _ _ _ Hth HQ). cbn [mbind option_bind].
    rewrite (step_merge_eq _ t a host server) by (by apply list_lookup_insert_eq).
    cbn [mbind option_bind].
    rewrite (step_done_eq _ t a (mkQueue js n));
      [| simpl; rewrite list_insert_insert_eq; by apply list_lookup_insert_eq
       | simpl; by apply list_lookup_insert_eq ].
    cbn [mbind option_bind]. rewrite (IH _ a t (pred n)); simpl.
    + rewrite !list_insert_insert_eq. rewrite (list_insert_id (threads w)) by done.
      replace (Init.Nat.pred n - length js) with (n - S (length js)) by lia.
      unfold apply_merge at 2. simpl. by destruct (self w).
    + rewrite !list_insert_insert_eq. by apply list_lookup_insert_eq.
    + rewrite list_insert_insert_eq. by apply list_lookup_insert_eq.
Qed.

Lemma enqueue_order_pool (r : Resolver) :
  enqueue_order r ≠ [] → 0 < Z.to_nat (pool_size r).
Proof.
  intros Hne. assert (0 < length (enqueue_order r)) as Hlen.
  { destruct (enqueue_order r); [done | simpl; lia]. }
  rewrite length_enqueue_order in Hlen. unfold pool_size, num_queries, len.
  destruct (hostnames r) as [|h hs]; simpl in *; [lia |].
  destruct (Z.gtb_spec (Z.of_nat (S (length hs)) * tries r * Z.of_nat (length (nameservers r)))
              max_workers); unfold max_workers in *; [lia | nia].
Qed.

(** For every assignment of lookup results to the jobs there is a run of
    the call that returns, having merged exactly these results. *)
Lemma resolve_sequential (f : job → lookup_result) (w : World) :
  idle w → truthy_flag (workers (self w)) = false →
  let sch := mkSchedule (sequential (length (threads w)) f (enqueue_order (self w))) false in
  ∃ w', resolve sch w =
          Returned w' (foldl apply_merge (cache (self w)) (answers f (enqueue_order (self w))))
        ∧ resolve_log sch w = answers f (enqueue_order (self w)).
Proof.
  intros Hidle Hflag sch.
  set (a := length (queues w)). set (t := length (threads w)).
  set (js := enqueue_order (self w)).
  assert (∃ w1, exec (sch_events sch) (resolve_enter w) = Some (w1, answers f js)
                ∧ enqueuing w1 = Some (a, [])
                ∧ cache (self w1) = foldl apply_merge (cache (self w)) (answers f js)
                ∧ queues w1 !! a = Some (mkQueue [] 0)) as (w1 & Hex & Henq & Hc & HQ).
  { unfold sch, sequential. simpl. fold js t. rewrite exec_app.
    rewrite resolve_enter_fresh by done. fold a js.
    erewrite exec_puts; [| done | simpl; by apply list_lookup_middle].
    cbn [mbind option_bind]. simpl.
    destruct (decide (js = [])) as [Hnil | Hne].
    - rewrite Hnil. simpl. eexists. split; [done |]. simpl. split; [done |].
      split; [done |]. apply list_lookup_insert_eq. rewrite length_app. simpl. lia.
    - erewrite (exec_serve f js _ a t).
      + cbn [mbind option_bind]. simpl. eexists. split; [done |]. simpl.
        split; [done |]. split; [done |]. rewrite list_insert_insert_eq.
        rewrite Nat.sub_diag. apply list_lookup_insert_eq. rewrite length_app. simpl. lia.
      + simpl. rewrite lookup_app_r by done. unfold t. rewrite Nat.sub_diag.
        pose proof (enqueue_order_pool _ Hne) as Hpool. unfold range.
        rewrite !list_lookup_fmap, lookup_seq_lt by done. done.
      + simpl. apply list_lookup_insert_eq. rewrite length_app. simpl. lia. }
  unfold resolve, resolve_log. rewrite Hex. unfold resolve_assign. rewrite Henq. simpl.
  rewrite HQ. simpl. rewrite Hc. eexists. split; [|done]. done.
Qed.

(** ** Sequences of calls on one engine *)

Lemma new_world_sound kw : sound (new_world kw).
Proof.
  split; [|split].
  - by repeat split.
  - done.
  - intros h v. simpl. by rewrite lookup_empty.
Qed.

Lemma resolve_all_sets sch w w' c :
  all_sets (cache (self w)) → resolve sch w = Returned w' c → all_sets c.
Proof.
  intros Hs H. apply resolve_cache in H as [-> _]. by apply foldl_apply_merge_all_sets.
Qed.

Lemma do_call_sound k w w' : sound w → do_call k w = Some w' → sound w'.
Proof.
  intros (Hidle & Hq & Hsets).
  destruct k as [hs|ns|n|t|d|b|sch]; simpl;
    try (intros [= <-]; split; [done | split]; simpl; by destruct (self w)).
  - intros [= <-]. split; [done |]. split; [done |]. simpl.
    destruct b; [|done]. intros h v. by rewrite lookup_empty.
  - destruct (resolve sch w) as [w1 c| |] eqn:H; try done. intros [= <-].
    destruct (resolve_returned_idle _ _ _ _ Hidle H) as (Hi & Hf & Hh & _ & Hc).
    split; [done |]. split; [done |]. rewrite Hc. by eapply resolve_all_sets.
Qed.

Lemma do_calls_sound ks w w' : sound w → do_calls ks w = Some w' → sound w'.
Proof.
  revert w. induction ks as [|k ks IH]; intros w Hs; simpl.
  - by intros [= <-].
  - destruct (do_call k w) as [w1|] eqn:Hk; simpl; [|done].
    apply IH. by eapply do_call_sound.
Qed.

(** Every state a caller can bring a newly constructed engine into by
    assignments, [clear] and returning [resolve] calls is sound. *)
Lemma engine_sound kw ks w : do_calls ks (new_world kw) = Some w → sound w.
Proof. apply do_calls_sound, new_world_sound. Qed.

Lemma do_call_cache_le k w w' :
  keeps_cache k = true → do_call k w = Some w' →
  cache_le (cache (self w)) (cache (self w')).
Proof.
  destruct k as [hs|ns|n|t|d|b|sch]; simpl; intros Hk;
    try (intros [= <-]; simpl; apply cache_le_refl).
  - intros [= <-]. simpl. destruct b; [done | apply cache_le_refl].
  - destruct (resolve sch w) as [w1 c| |] eqn:H; try done. intros [= <-].
    apply resolve_cache in H as [Hc ->]. rewrite Hc. apply foldl_apply_merge_le.
Qed.

Lemma do_calls_cache_le ks w w' :
  forallb keeps_cache ks = true → do_calls ks w = Some w' →
  cache_le (cache (self w)) (cache (self w')).
Proof.
  revert w. induction ks as [|k ks IH]; intros w; simpl.
  - intros _ [= <-]. apply cache_le_refl.
  - intros [Hk Hks]%andb_true_iff.
    destruct (do_call k w) as [w1|] eqn:Hcall; simpl; [|done]. intros Hrest.
    eapply cache_le_trans; [by eapply do_call_cache_le | by apply IH].
Qed.

(** Without an interrupt a call on a sound engine never raises. *)
Lemma resolve_not_raised sch w e w' :
  sound w → sch_interrupt sch = false → resolve sch w ≠ Raised e w'.
Proof.
  intros (Hidle & Hq & _) Hint. unfold resolve. rewrite Hint.
  destruct (exec (sch_events sch) (resolve_enter w)) as [[w1 l]|] eqn:Hex; [|done].
  destruct (resolve_assign w1) as [w2|] eqn:Has; [|done].
  assert (is_Some (q (self w2))) as [a Ha].
  { unfold resolve_assign in Has.
    destruct (truthy_flag (workers (self w))) eqn:Hflag.
    - rewrite resolve_enter_started in Hex by done.
      destruct (exec_idle _ _ _ _ Hidle Hex) as (_ & -> & _).
      destruct Hidle as (Henq & _). rewrite Henq in Has. injection Has as <-.
      destruct (Hq eq_refl) as (a & Q & Ha & _). by exists a.
    - apply exec_enqueuing_addr in Hex.
      rewrite resolve_enter_fresh in Hex by done. simpl in Hex.
      destruct (enqueuing w1) as [[b [|j js]]|]; try done.
      injection Has as <-. by eexists. }
  rewrite Ha. destruct (queues w2 !! a) as [Q|]; [|done].
  destruct (joinable Q); [|done]. by destruct (_process_dead_hosts (self w2)).
Qed.

(** ** Every run ends *)

Lemma step_remaining e w w' l :
  step e w = Some (w', l) → remaining w = S (remaining w').
Proof.
  intros H. step_cases H; unfold remaining, unput; simpl.
  - rewrite Henq. simpl.
    pose proof (sum_list_with_insert (λ Q, length (items Q)) (queues w) a Q (put j Q) HQ) as Hs.
    simpl in Hs. rewrite length_app in Hs. simpl in Hs. lia.
  - pose proof (sum_list_with_insert (λ Q, length (items Q)) (queues w) a Q
                  (mkQueue rest (unfinished_tasks Q)) HQ) as Hs.
    pose proof (sum_list_with_insert stage (threads w) t _
                  (mkThread a (Looking j)) Hth) as Ht.
    unfold stage in Ht at 2 4. simpl in Hs, Ht. rewrite Hit in Hs. simpl in Hs. lia.
  - pose proof (sum_list_with_insert stage (threads w) t _ (mkThread a Merged) Hth) as Ht.
    unfold stage in Ht at 2 4. simpl in Ht. lia.
  - pose proof (sum_list_with_insert (λ Q, length (items Q)) (queues w) a Q
                  (task_done Q) HQ) as Hs.
    pose proof (sum_list_with_insert stage (threads w) t _ (mkThread a Waiting) Hth) as Ht.
    unfold stage in Ht at 2 4. simpl in Hs, Ht. lia.
Qed.

(** A run of [n] events uses up [n] of the remaining steps, so no run is
    longer than what remains at its start. *)
Lemma exec_remaining evs w w' l :
  exec evs w = Some (w', l) → remaining w = length evs + remaining w'.
Proof.
  revert w w' l. induction evs as [|e evs IH]; intros w w' l Hex.
  - simpl in Hex. by simplify_eq.
  - apply exec_cons_inv in Hex as (w1 & l1 & l2 & Hs & Hex & ->).
    rewrite (step_remaining _ _ _ _ Hs), (IH _ _ _ Hex). simpl. lia.
Qed.

Lemma idle_remaining w : idle w → remaining w = 0.
Proof.
  intros (Henq & Hq & Ht). unfold remaining, unput. rewrite Henq. simpl.
  rewrite !sum_list_with_0; [done | |].
  - eapply Forall_impl; [exact Ht |]. intros th Hth. unfold stage. by rewrite Hth.
  - eapply Forall_impl; [exact Hq |]. by intros Q [-> _].
Qed.

Lemma fresh_remaining w :
  idle w → truthy_flag (workers (self w)) = false →
  remaining (resolve_enter w) = 4 * length (enqueue_order (self w)).
Proof.
  intros Hidle Hflag. pose proof (idle_remaining w Hidle) as H0.
  rewrite resolve_enter_fresh by done. unfold remaining, unput in *. simpl.
  destruct Hidle as (Henq & _). rewrite Henq in H0. simpl in H0.
  rewrite !sum_list_with_app. simpl.
  rewrite (sum_list_with_0 stage (_ <$> _)); [lia |].
  apply Forall_fmap, Forall_true. done.
Qed.

(** A call that starts a run and returns has taken exactly four steps per
    job: put, get, merge, task_done. *)
Lemma resolve_fresh_length w sch w' c :
  idle w → truthy_flag (workers (self w)) = false →
  resolve sch w = Returned w' c →
  length (sch_events sch) = 4 * length (enqueue_order (self w)).
Proof.
  intros Hidle Hflag H.
  destruct (resolve_fresh_returned _ _ _ _ Hidle Hflag H) as (_ & Hidle' & _).
  apply resolve_returned_inv in H
    as (w1 & l & w2 & a & Q & Hex & _ & Has & _ & _ & _ & _ & _ & ->).
  pose proof (exec_remaining _ _ _ _ Hex) as Hrem.
  rewrite fresh_remaining in Hrem by done.
  assert (remaining w1 = 0) as H0; [|lia].
  destruct Hidle' as (_ & Hq & Ht). simpl in Hq, Ht.
  unfold resolve_assign in Has. unfold remaining, unput.
  destruct (enqueuing w1) as [[b [|j js]]|]; try done; simplify_eq; simpl in *.
  - rewrite !sum_list_with_0; [done | |].
    + eapply Forall_impl; [exact Ht |]. intros th Hth. unfold stage. by rewrite Hth.
    + eapply Forall_impl; [exact Hq |]. by intros Q' [-> _].
  - rewrite !sum_list_with_0; [done | |].
    + eapply Forall_impl; [exact Ht |]. intros th Hth. unfold stage. by rewrite Hth.
    + eapply Forall_impl; [exact Hq |]. by intros Q' [-> _].
Qed.

(** ** No run gets stuck *)

Lemma step_thread_queues e w w' l :
  step e w = Some (w', l) → t_queue <$> threads w' = t_queue <$> threads w.
Proof.
  intros H. step_cases H; simpl; try done;
    rewrite list_fmap_insert; simpl; apply list_insert_id;
    by rewrite list_lookup_fmap, Hth.
Qed.

Lemma exec_thread_queues evs w w' l :
  exec evs w = Some (w', l) → t_queue <$> threads w' = t_queue <$> threads w.
Proof.
  revert w w' l. induction evs as [|e evs IH]; intros w w' l Hex.
  - simpl in Hex. by simplify_eq.
  - apply exec_cons_inv in Hex as (w1 & l1 & l2 & Hs & Hex & ->).
    rewrite (IH _ _ _ Hex). by eapply step_thread_queues.
Qed.

Lemma exec_snoc evs e w w1 l1 w2 l2 :
  exec evs w = Some (w1, l1) → step e w1 = Some (w2, l2) →
  exec (evs ++ [e]) w = Some (w2, l1 ++ l2).
Proof.
  intros Hex Hs. rewrite exec_app, Hex. simpl. rewrite Hs. simpl.
  by rewrite (right_id_L [] (++)).
Qed.

(** In every state a run can reach, either some thread can take a step or
    the queue is drained and [join()] returns: the workers cannot block
    the call. *)
Lemma run_progress w evs w1 l :
  idle w → truthy_flag (workers (self w)) = false →
  exec evs (resolve_enter w) = Some (w1, l) →
  (∃ e w2 l2, step e w1 = Some (w2, l2))
  ∨ (∃ w', resolve (mkSchedule evs false) w = Returned w' (cache (self w1))).
Proof.
  intros Hidle Hflag Hex.
  pose proof (exec_balanced _ _ _ _ Hex (fresh_balanced w Hidle Hflag)) as Hbal.
  pose proof (exec_only_queue _ _ _ _ _ Hex (fresh_only_queue w Hidle Hflag)) as Honly.
  pose proof (exec_outstanding _ _ _ _ Hex) as Hout.
  pose proof (exec_enqueuing_addr _ _ _ _ Hex) as Haddr.
  pose proof (exec_thread_queues _ _ _ _ Hex) as Htq.
  pose proof (exec_lengths _ _ _ _ Hex) as [Hlq _].
  rewrite fresh_outstanding in Hout by done.
  rewrite resolve_enter_fresh in Haddr, Hlq, Htq by done. simpl in Haddr, Hlq, Htq.
  rewrite length_app in Hlq. simpl in Hlq.
  destruct (enqueuing w1) as [[b js]|] eqn:Henq; [|done].
  simpl in Haddr. injection Haddr as ->.
  destruct (lookup_lt_is_Some_2 (queues w1) (length (queues w))) as [Q HQ]; [lia |].
  destruct js as [|j rest].
  2:{ left. exists EPut. unfold step. rewrite Henq. simpl. rewrite HQ. simpl. eauto. }
  destruct Honly as (_ & _ & Hot).
  destruct (Forall_Exists_dec (λ th, t_state th = Waiting) (λ th, t_state th ≠ Waiting)
              (λ th, decide (t_state th = Waiting)) (threads w1)) as [Hwait | Hbusy].
  - destruct Q as [its n]. destruct its as [|j rest].
    + right. pose proof (Hbal _ _ HQ) as HbQ. simpl in HbQ.
      rewrite sum_list_with_0 in HbQ.
      2:{ eapply Forall_impl; [exact Hwait |]. intros th Hth. unfold busy. by rewrite Hth. }
      subst n. unfold resolve. simpl. rewrite Hex. unfold resolve_assign. rewrite Henq.
      simpl. rewrite HQ. simpl. eauto.
    + left. exists (EGet (length (threads w))).
      assert (enqueue_order (self w) ≠ []) as Hjobs.
      { intros Hnil. rewrite Hnil in Hout. apply Permutation_nil_l in Hout.
        symmetry in Hout. apply app_eq_nil in Hout as [Hout _]. unfold outstanding in Hout.
        apply app_eq_nil in Hout as [_ Hout]. apply app_eq_nil in Hout as [Hout _].
        assert (j ∈ queues w1 ≫= items) as Hin; [|by rewrite Hout in Hin; apply elem_of_nil in Hin].
        apply list_elem_of_bind. exists (mkQueue (j :: rest) n). split.
        - apply list_elem_of_here.
        - apply list_elem_of_lookup. eauto. }
      pose proof (enqueue_order_pool _ Hjobs) as Hpool.
      assert ((t_queue <$> threads w1) !! length (threads w) = Some (length (queues w))) as Ht0.
      { rewrite Htq, fmap_app, lookup_app_r by (by rewrite length_fmap).
        rewrite length_fmap, Nat.sub_diag. unfold range.
        rewrite !list_lookup_fmap, lookup_seq_lt by done. done. }
      apply list_lookup_fmap_Some in Ht0 as (th & Hq0 & Hth).
      rewrite Forall_lookup in Hwait. pose proof (Hwait _ _ Hth) as Hst.
      destruct th as [b st]. simpl in Hq0, Hst. rewrite <- Hq0, Hst in Hth.
      rewrite (step_get_eq _ _ _ _ _ _ Hth HQ). eauto.
  - left. apply Exists_exists in Hbusy as (th & Hin & Hst).
    apply list_elem_of_lookup in Hin as [t Hth].
    destruct th as [b st]. simpl in Hst. destruct st as [|[host server]|]; [done | |].
    + exists (EMerge t None). rewrite (step_merge_eq _ _ _ _ _ _ Hth). eauto.
    + exists (EDone t).
      destruct (decide (b = length (queues w))) as [->|Hne].
      * rewrite (step_done_eq _ _ _ _ Hth HQ). eauto.
      * by pose proof (Hot _ _ Hth Hne).
Qed.

(** Hence every run that a call has begun can be completed: whatever has
    happened so far, some continuation of the schedule makes the call
    return. *)
Lemma run_completes w evs w1 l :
  idle w → truthy_flag (workers (self w)) = false →
  exec evs (resolve_enter w) = Some (w1, l) →
  ∃ evs' w' c, resolve (mkSchedule (evs ++ evs') false) w = Returned w' c.
Proof.
  intros Hidle Hflag. remember (remaining w1) as n eqn:Hn.
  revert evs w1 l Hn. induction n as [n IH] using lt_wf_ind. intros evs w1 l Hn Hex.
  destruct (run_progress _ _ _ _ Hidle Hflag Hex) as [(e & w2 & l2 & Hs) | (w' & H)].
  - pose proof (step_remaining _ _ _ _ Hs) as Hrem.
    destruct (IH (remaining w2) ltac:(lia) (evs ++ [e]) w2 (l ++ l2) eq_refl)
      as (evs' & w' & c & H); [by eapply exec_snoc |].
    exists (e :: evs'), w', c. by rewrite <- (assoc_L (++)) in H.
  - exists [], w', (cache (self w1)). by rewrite (right_id_L [] (++)).
Qed.

(** * Main results *)

(** ** Running example: two hosts, one nameserver, one try *)

Example ex_after_cache :
  cache (self ex_after) = {[ "www" := Some {["1.2.3.4"]}; "mail" := Some ∅ ]}
  ∧ dead_hosts (self ex_after) = Some {["mail"]}.
Proof. vm_compute. split; reflexivity. Qed.

Example ex_again_cache :
  cache (self ex_again) = {[ "www" := Some {["1.2.3.4"; "5.6.7.8"]}; "mail" := Some ∅ ]}.
Proof. vm_compute. reflexivity. Qed.

(** C1: a cache merge never shrinks an entry: after [_update_cache], after
    any sequence of merges, after any run of the worker threads, after a
    [resolve] call and after any sequence of calls that does not reset the
    cache, every key that was in the cache is still there with at least
    the addresses it had. *)
Theorem cache_entries_never_shrink :
  (∀ host ips c, cache_le c (_update_cache host ips c))
  ∧ (∀ (ms : list (string * gset (option string))) c,
       cache_le c (foldl (λ c' m, _update_cache m.1 m.2 c') c ms))
  ∧ (∀ evs w w' l,
       exec evs w = Some (w', l) → cache_le (cache (self w)) (cache (self w')))
  ∧ (∀ sch w w' c,
       resolve sch w = Returned w' c → cache_le (cache (self w)) c)
  ∧ (∀ ks w w',
       forallb keeps_cache ks = true → do_calls ks w = Some w' →
       cache_le (cache (self w)) (cache (self w'))).
Proof.
  split; [|split; [|split; [|split]]].
  - apply _update_cache_le.
  - intros ms. induction ms as [|m ms IH]; intros c; simpl; [apply cache_le_refl |].
    eapply cache_le_trans; [apply _update_cache_le | apply IH].
  - intros evs w w' l Hex. rewrite (exec_self _ _ _ _ Hex). simpl.
    apply foldl_apply_merge_le.
  - intros sch w w' c H. apply resolve_cache in H as [-> _].
    apply foldl_apply_merge_le.
  - apply do_calls_cache_le.
Qed.

Lemma cache_entries_never_shrink_witness :
  cache_le (cache (self (resolve_enter ex_world))) (cache (self ex_run.1))
  ∧ cache_le (cache (self ex_world)) (cache (self ex_after))
  ∧ cache_le (cache (self ex_after)) (cache (self ex_again)).
Proof.
  destruct cache_entries_never_shrink as (_ & _ & Hexec & Hresolve & Hcalls).
  split; [|split].
  - apply (Hexec (sch_events ex_schedule) (resolve_enter ex_world) ex_run.1 ex_run.2).
    vm_compute. reflexivity.
  - apply (Hresolve ex_schedule ex_world ex_after (cache (self ex_after))).
    vm_compute. reflexivity.
  - apply (Hcalls ex_calls ex_after ex_again); vm_compute; reflexivity.
Defined.

(** ** Job enumeration *)


Example ex_resolver_jobs :
  enqueue_order ex_resolver =
    [("www", "8.8.8.8"); ("www", "8.8.4.4"); ("mail", "8.8.8.8"); ("mail", "8.8.4.4");
     ("www", "8.8.8.8"); ("www", "8.8.4.4"); ("mail", "8.8.8.8"); ("mail", "8.8.4.4");
     ("www", "8.8.8.8"); ("www", "8.8.4.4"); ("mail", "8.8.8.8"); ("mail", "8.8.4.4")].
Proof. reflexivity. Qed.


(** ** Construction *)

(** C10: a resolver constructed without arguments has [tries = 1],
    [timeout = 5], the two default hostnames, domain ["google.com"], the
    two default nameservers, an empty cache, and neither a queue nor a
    worker pool: nothing is allocated or started before [resolve]. *)
Theorem init_defaults :
  __init__ no_kwargs =
    {| tries := 1; timeout := 5;
       hostnames := ["www.google.com"; "www.cisco.com"];
       domain := "google.com";
       nameservers := ["8.8.8.8"; "8.8.4.4"];
       cache := ∅; q := None; workers := None; dead_hosts := None |}
  ∧ queues (new_world no_kwargs) = []
  ∧ threads (new_world no_kwargs) = []
  ∧ enqueuing (new_world no_kwargs) = None.
Proof. by repeat split. Qed.

(** A keyword that is given replaces its default and no other. *)
Lemma init_keyword_hostnames hs :
  __init__ (mkKwargs None None (Some hs) None None) = set_hostnames hs (__init__ no_kwargs).
Proof. done. Qed.

(** ** A second [resolve] without [clear] *)

(** C2, as stated, fails: after a first [resolve] the flag [self.workers]
    is set, so a second call puts no job on the queue although the
    configuration enumerates two, accepts no lookup result, and returns
    the cache as it was; a host assigned in between is never looked up. *)
Lemma second_resolve_counterexample :
  resolve ex_schedule ex_world = Returned ex_after (cache (self ex_after))
  ∧ enqueue_order (self ex_after) = [("www", "8.8.8.8"); ("mail", "8.8.8.8")]
  ∧ unput (resolve_enter ex_after) = []
  ∧ unput (resolve_enter ex_after) ≠ enqueue_order (self ex_after)
  ∧ resolve (mkSchedule [EPut; EGet 0; EMerge 0 (Some {["9.9.9.9"]}); EDone 0] false)
            ex_after
      = Unfinished
  ∧ resolve (mkSchedule [] false) ex_after = Returned ex_after (cache (self ex_after))
  ∧ hostnames (self ex_stale) = ["maps"]
  ∧ cache (self ex_stale) = cache (self ex_after)
  ∧ cache (self ex_stale) !! "maps" = None.
Proof. vm_compute. repeat split; done. Qed.

Lemma set_dead_hosts_id r d : dead_hosts r = Some d → set_dead_hosts (Some d) r = r.
Proof. destruct r. simpl. by intros ->. Qed.

(** C2, amended: once a [resolve] has returned, a further [resolve] on the
    same engine without [clear] finds the flag set: it enumerates no job,
    starts no thread, merges nothing, and returns the same cache in the
    same state, whatever the configuration now says. *)
Theorem second_resolve_noop (w : World) (sch1 : schedule) (w1 : World) (c1 : Cache) :
  idle w → resolve sch1 w = Returned w1 c1 →
  unput (resolve_enter w1) = []
  ∧ threads_started w1 = 0
  ∧ resolve (mkSchedule [] false) w1 = Returned w1 c1
  ∧ (∀ hs ns n, resolve (mkSchedule [] false)
                  (with_self (set_hostnames hs ∘ set_nameservers ns ∘ set_tries n) w1)
                = Returned (with_self (set_hostnames hs ∘ set_nameservers ns ∘ set_tries n) w1)
                           c1)
  ∧ (∀ sch2 w2 c2, resolve sch2 w1 = Returned w2 c2 →
       sch_events sch2 = [] ∧ resolve_log sch2 w1 = [] ∧ c2 = c1 ∧ w2 = w1
       ∧ cache_le c1 c2).
Proof.
  intros Hidle H.
  destruct (resolve_returned_idle _ _ _ _ Hidle H)
    as (Hidle1 & Hflag & (a & Q & Hq & HQ) & Hdead & Hc).
  assert (∀ f, (∀ r, workers (f r) = workers r ∧ q (f r) = q r ∧ cache (f r) = cache r
                     ∧ dead_hosts (f r) = dead_hosts r) →
               resolve (mkSchedule [] false) (with_self f w1) = Returned (with_self f w1) c1)
    as Hnoop.
  { intros f Hf. destruct (Hf (self w1)) as (Hfw & Hfq & Hfc & Hfd).
    unfold resolve. rewrite resolve_enter_started by (simpl; by rewrite Hfw).
    simpl. unfold resolve_assign. simpl.
    destruct Hidle1 as (Henq & Hqs & _). rewrite Henq.
    change (self (with_self f w1)) with (f (self w1)).
    change (queues (with_self f w1)) with (queues w1).
    rewrite Hfq, Hq, HQ.
    rewrite Forall_lookup in Hqs. destruct (Hqs _ _ HQ) as [_ HQ0].
    unfold joinable. rewrite HQ0. simpl. rewrite Hfc, Hc.
    rewrite set_dead_hosts_id by (by rewrite Hfd, Hdead, Hc). done. }
  clear H.
  split; [|split; [|split; [|split]]].
  - rewrite resolve_enter_started by done. unfold unput.
    destruct Hidle1 as (-> & _). done.
  - by apply threads_started_started.
  - specialize (Hnoop id). destruct w1. apply Hnoop. done.
  - intros hs ns n. apply Hnoop. intros r. by destruct r.
  - intros sch2 w2 c2 H2.
    destruct (resolve_started_returned _ _ _ _ Hidle1 Hflag H2) as (He & Hl & Hc2 & Hw2).
    rewrite Hc in Hc2. subst c2. repeat split; try done; [|apply cache_le_refl].
    rewrite Hw2. destruct w1 as [r qs ths enq]. unfold with_self. simpl in *.
    by rewrite set_dead_hosts_id by (by rewrite Hdead).
Qed.

Lemma second_resolve_noop_witness :
  unput (resolve_enter ex_after) = [] ∧ threads_started ex_after = 0.
Proof.
  assert (idle ex_world) as Hidle by (by repeat split).
  assert (resolve ex_schedule ex_world = Returned ex_after (cache (self ex_after))) as H
    by (vm_compute; reflexivity).
  destruct (second_resolve_noop ex_world ex_schedule ex_after _ Hidle H) as (H1 & H2 & _).
  by split.
Defined.

(** ** The size of the worker pool *)

(** C4, as stated, fails for an empty host list: there is no job, and 510
    threads are started, not [min 0 510 = 0]. *)
Lemma pool_size_counterexample :
  num_queries (self ex_no_hosts) = 0%Z
  ∧ threads_started ex_no_hosts = 510
  ∧ Z.of_nat (threads_started ex_no_hosts)
      ≠ Z.min (num_queries (self ex_no_hosts)) max_workers.
Proof. vm_compute. repeat split; done. Qed.

(** C4, amended: a call that starts a run (the flag is not set), with
    [tries >= 0], starts [min(num_queries, 510)] threads when the host
    list is not empty, and 510 threads when it is empty. *)
Theorem pool_size_policy (w : World) :
  truthy_flag (workers (self w)) = false → (0 ≤ tries (self w))%Z →
  (hostnames (self w) ≠ [] →
     Z.of_nat (threads_started w) = Z.min (num_queries (self w)) max_workers)
  ∧ (hostnames (self w) = [] → threads_started w = 510).
Proof.
  intros Hflag Ht. rewrite threads_started_fresh by done.
  unfold pool_size, num_queries, max_workers, len. split.
  - destruct (hostnames (self w)) as [|h hs]; [done |]. intros _. simpl truthy_list.
    cbv iota.
    destruct (Z.gtb_spec (Z.of_nat (length (h :: hs)) * tries (self w)
                          * Z.of_nat (length (nameservers (self w)))) 510); nia.
  - by intros ->.
Qed.

Lemma pool_size_policy_witness :
  Z.of_nat (threads_started ex_twelve) = 12%Z ∧ threads_started ex_no_hosts = 510.
Proof.
  split.
  - apply (pool_size_policy ex_twelve); [reflexivity | simpl; lia | done].
  - apply (pool_size_policy ex_no_hosts); [reflexivity | simpl; lia | reflexivity].
Defined.

(** ** Failed lookups *)

Lemma resolve_dead_hosts sch w w' c :
  resolve sch w = Returned w' c →
  dead_hosts (self w') = Some (dead_hosts_of c) ∧ cache (self w') = c.
Proof.
  intros H. pose proof (resolve_cache _ _ _ _ H) as [_ Hc]. split; [|done].
  apply resolve_returned_inv in H
    as (w1 & l & w2 & a & Q & _ & _ & _ & _ & _ & _ & _ & _ & ->).
  simpl. by destruct (self w2).
Qed.

Lemma enqueue_order_host (r : Resolver) host :
  host ∈ hostnames r → nameservers r ≠ [] → (0 < tries r)%Z →
  ∃ server, (host, server) ∈ enqueue_order r.
Proof.
  intros Hh Hn Ht. destruct (nameservers r) as [|s ns] eqn:Hns; [done |].
  exists s. apply elem_of_enqueue_order. rewrite Hns. repeat split; [done.. |].
  apply list_elem_of_here.
Qed.

(** C5: merging the empty set creates the entry [set()] for a host that
    has none and changes nothing for a host that has one; this is what a
    worker does after a failed lookup.  Hence, when [resolve] starts a run
    in which every lookup of a configured host fails, the call returns and
    the host is in the cache with the empty set (and among the dead
    hosts) if it had no entry, and keeps its entry if it had one; without
    an interrupt the call raises nothing, and a returning run exists in
    which all lookups fail. *)
Theorem failed_lookups_leave_empty_set :
  (∀ host (c : Cache), c !! host = None → _update_cache host ∅ c = <[host := Some ∅]> c)
  ∧ (∀ host (c : Cache) v, c !! host = Some v → _update_cache host ∅ c = c)
  ∧ (∀ host res c, truthy_result res = false →
       _run_merge host res c = _update_cache host ∅ c)
  ∧ (∀ w sch w' c host,
       idle w → truthy_flag (workers (self w)) = false →
       host ∈ hostnames (self w) → nameservers (self w) ≠ [] → (0 < tries (self w))%Z →
       (∀ server res, ((host, server), res) ∈ resolve_log sch w →
                      truthy_result res = false) →
       resolve sch w = Returned w' c →
       (cache (self w) !! host = None →
          c !! host = Some (Some ∅) ∧ host ∈ dead_hosts_of c
          ∧ dead_hosts (self w') = Some (dead_hosts_of c))
       ∧ (∀ v, cache (self w) !! host = Some v → c !! host = Some v))
  ∧ (∀ w sch e w', sound w → sch_interrupt sch = false → resolve sch w ≠ Raised e w')
  ∧ (∀ w, idle w → truthy_flag (workers (self w)) = false →
       ∃ w' c,
         resolve (mkSchedule (sequential (length (threads w)) (λ _, None)
                                (enqueue_order (self w))) false) w = Returned w' c
         ∧ ∀ host, host ∈ hostnames (self w) → nameservers (self w) ≠ [] →
                   (0 < tries (self w))%Z → cache (self w) !! host = None →
                   c !! host = Some (Some ∅)).
Proof.
  split; [|split; [|split; [|split; [|split]]]].
  - intros host c Hc. by rewrite _update_cache_eq, truthy_set_empty, Hc.
  - intros host c v Hc. by rewrite _update_cache_eq, truthy_set_empty, Hc.
  - intros host res c Hres.
    by rewrite _run_merge_eq, Hres, _update_cache_eq, truthy_set_empty.
  - intros w sch w' c host Hidle Hflag Hh Hn Ht Hfail H.
    destruct (resolve_fresh_returned _ _ _ _ Hidle Hflag H) as (Hperm & _).
    destruct (resolve_dead_hosts _ _ _ _ H) as [Hdead _].
    apply resolve_cache in H as [Hc _]. split.
    + intros Hnone.
      assert (c !! host = Some (Some ∅)) as Hempty.
      { rewrite Hc. apply foldl_apply_merge_dead; [done | done |].
        destruct (enqueue_order_host _ _ Hh Hn Ht) as [s Hs]. exists s. by rewrite Hperm. }
      split; [done |]. split; [|done].
      apply elem_of_dead_hosts_of. exists (Some ∅). split; [done |].
      simpl. apply truthy_set_empty.
    + intros v Hv. rewrite Hc. by apply foldl_apply_merge_failed.
  - intros w sch e w' Hs Hint. by apply resolve_not_raised.
  - intros w Hidle Hflag.
    destruct (resolve_sequential (λ _, None) w Hidle Hflag) as (w' & H & Hlog).
    eexists w', _. split; [exact H |].
    intros host Hh Hn Ht Hnone. apply foldl_apply_merge_dead; [done | |].
    + intros s res Hin. apply list_elem_of_fmap in Hin as (j & Heq & _). by simplify_eq.
    + destruct (enqueue_order_host _ _ Hh Hn Ht) as [s Hs]. exists s.
      unfold answers. rewrite <- list_fmap_compose.
      apply list_elem_of_fmap. by exists (host, s).
Qed.

Lemma failed_lookups_leave_empty_set_witness :
  _update_cache "mail" ∅ ∅ = {[ "mail" := Some ∅ ]}
  ∧ _update_cache "www" ∅ (cache (self ex_after)) = cache (self ex_after)
  ∧ _run_merge "mail" None ∅ = _update_cache "mail" ∅ ∅
  ∧ resolve ex_schedule ex_world ≠ Raised AttributeError ex_world
  ∧ (∃ c, returned_cache
            (resolve (mkSchedule (sequential 0 (λ _, None) (enqueue_order (self ex_world)))
                                 false) ex_world) = Some c
          ∧ c !! "www" = Some (Some ∅))
  ∧ cache (self ex_after) !! "mail" = Some (Some ∅)
  ∧ "mail" ∈ dead_hosts_of (cache (self ex_after)).
Proof.
  destruct failed_lookups_leave_empty_set as (Hnew & Hold & Hfailed & Hrun & Hraise & Hex).
  split; [|split; [|split; [|split; [|split]]]].
  - apply (Hnew "mail" ∅). reflexivity.
  - apply (Hold "www" (cache (self ex_after)) (Some {["1.2.3.4"]})).
    vm_compute. reflexivity.
  - apply (Hfailed "mail" None ∅). reflexivity.
  - apply (Hraise ex_world ex_schedule); [apply new_world_sound | reflexivity].
  - destruct (Hex ex_world) as (w' & c & H & Hc); [by repeat split | reflexivity |].
    exists c. change (length (threads ex_world)) with 0 in H. rewrite H.
    split; [reflexivity |]. apply Hc; [simpl; set_solver | done | simpl; lia | reflexivity].
  - assert (idle ex_world) as Hidle by (by repeat split).
    assert (∀ server res,
              (("mail", server), res) ∈ resolve_log ex_schedule ex_world →
              truthy_result res = false) as Hfail.
    { intros server res Hin. vm_compute in Hin.
      apply elem_of_cons in Hin as [Heq | Hin]; [by simplify_eq |].
      apply elem_of_cons in Hin as [Heq | Hin]; [by simplify_eq |].
      by apply elem_of_nil in Hin. }
    destruct (Hrun ex_world ex_schedule ex_after (cache (self ex_after)) "mail")
      as [Hdead _].
    + exact Hidle.
    + reflexivity.
    + simpl. set_solver.
    + done.
    + simpl. lia.
    + exact Hfail.
    + vm_compute. reflexivity.
    + destruct Hdead as (H1 & H2 & _); [reflexivity | by split].
Defined.

(** ** The dead hosts *)

(** C6: when [resolve] returns, [self.dead_hosts] has just been assigned
    the set computed from the returned cache: it holds the keys whose
    value is falsy and no other; the cache of an engine holds sets only,
    so these are exactly the keys mapped to the empty set. *)
Theorem dead_hosts_exact (sch : schedule) (w w' : World) (c : Cache) :
  resolve sch w = Returned w' c →
  dead_hosts (self w') = Some (dead_hosts_of c)
  ∧ cache (self w') = c
  ∧ (∀ h, h ∈ dead_hosts_of c ↔ ∃ v, c !! h = Some v ∧ truthy_value v = false)
  ∧ (all_sets (cache (self w)) →
     ∀ h, (h ∈ dead_hosts_of c ↔ c !! h = Some (Some ∅))
          ∧ (c !! h = None → h ∉ dead_hosts_of c)
          ∧ (∀ s, c !! h = Some (Some s) → s ≠ ∅ → h ∉ dead_hosts_of c)).
Proof.
  intros H. destruct (resolve_dead_hosts _ _ _ _ H) as [Hd Hc].
  split; [done |]. split; [done |]. split; [apply elem_of_dead_hosts_of |].
  intros Hsets h. pose proof (resolve_all_sets _ _ _ _ Hsets H) as Hsets'.
  pose proof (elem_of_dead_hosts_of_sets c h Hsets') as Hiff.
  split; [done |]. split.
  - intros Hn Hin. apply Hiff in Hin. congruence.
  - intros s Hs Hne Hin. apply Hiff in Hin. congruence.
Qed.

Lemma dead_hosts_exact_witness :
  dead_hosts (self ex_after) = Some (dead_hosts_of (cache (self ex_after)))
  ∧ "mail" ∈ dead_hosts_of (cache (self ex_after))
  ∧ ("www" ∉ dead_hosts_of (cache (self ex_after)))
  ∧ ("maps" ∉ dead_hosts_of (cache (self ex_after))).
Proof.
  assert (resolve ex_schedule ex_world = Returned ex_after (cache (self ex_after))) as H
    by (vm_compute; reflexivity).
  destruct (dead_hosts_exact _ _ _ _ H) as (Hd & _ & _ & Hsets).
  assert (all_sets (cache (self ex_world))) as Hall.
  { intros h v. simpl. by rewrite lookup_empty. }
  split; [exact Hd | split; [|split]].
  - apply (Hsets Hall "mail"). vm_compute. reflexivity.
  - apply (proj2 (proj2 (Hsets Hall "www")) ({["1.2.3.4"]})); [vm_compute; reflexivity |].
    apply truthy_set_true. vm_compute. reflexivity.
  - apply (proj1 (proj2 (Hsets Hall "maps"))). vm_compute. reflexivity.
Defined.

(** ** Configurations that cannot resolve anything *)















(** ** No host to resolve *)



(** ** [clear] and a fresh session *)

(** C9: [clear(cache=True)] empties the host list, resets the queue
    handle and the flag, and leaves an empty cache.  A [resolve] that
    follows, on the configuration assigned for it, starts a run; when it
    returns, each job of that configuration has been merged exactly once
    into the empty cache: the keys are the configured hosts (provided
    there is a nameserver and [tries > 0]), each mapped to the set of
    addresses its lookups returned — nothing of the old cache is left. *)
Theorem clear_then_resolve :
  (∀ r, hostnames (clear true r) = [] ∧ q (clear true r) = None
        ∧ workers (clear true r) = None ∧ cache (clear true r) = ∅)
  ∧ (∀ w hs ns d n t sch w' c,
       idle w →
       let w1 := with_self (configure hs ns d n t ∘ clear true) w in
       resolve sch w1 = Returned w' c →
       (resolve_log sch w1).*1 ≡ₚ enqueue_order (self w1)
       ∧ c = foldl apply_merge ∅ (resolve_log sch w1)
       ∧ all_sets c
       ∧ (∀ h, h ∈ dom c ↔ h ∈ hs ∧ ns ≠ [] ∧ (0 < n)%Z)
       ∧ (∀ h ip, ip ∈ ips_at c h ↔
            ∃ s res, ((h, s), res) ∈ resolve_log sch w1 ∧ ip ∈ entry_ips res))
  ∧ (∀ w hs ns d n t (f : job → lookup_result),
       idle w →
       let w1 := with_self (configure hs ns d n t ∘ clear true) w in
       ∃ w', resolve (mkSchedule (sequential (length (threads w)) f (enqueue_order (self w1)))
                                 false) w1
             = Returned w' (foldl apply_merge ∅ (answers f (enqueue_order (self w1))))).
Proof.
  split; [done |]. split.
  - intros w hs ns d n t sch w' c Hidle w1 H.
    assert (idle w1) as Hidle1 by done.
    assert (truthy_flag (workers (self w1)) = false) as Hflag by done.
    destruct (resolve_fresh_returned _ _ _ _ Hidle1 Hflag H) as (Hperm & _).
    apply resolve_cache in H as [Hc _]. change (cache (self w1)) with (∅ : Cache) in Hc.
    split; [done |]. split; [done |]. split; [|split].
    + rewrite Hc. apply foldl_apply_merge_all_sets. intros h v. by rewrite lookup_empty.
    + intros h. rewrite Hc, foldl_apply_merge_dom, dom_empty_L. split.
      * intros [Hin | (s & Hin)]; [set_solver |].
        rewrite Hperm in Hin. apply elem_of_enqueue_order in Hin as (Ht & Hh & Hs).
        simpl in *. split; [done |]. split; [|done]. intros ->. by apply elem_of_nil in Hs.
      * intros (Hh & Hn & Ht). right.
        destruct (enqueue_order_host (self w1) h) as [s Hs]; [done.. |].
        exists s. by rewrite Hperm.
    + intros h ip. rewrite Hc, foldl_apply_merge_ips. unfold ips_at.
      rewrite lookup_empty. simpl. set_solver.
  - intros w hs ns d n t f Hidle w1.
    assert (idle w1) as Hidle1 by done.
    assert (truthy_flag (workers (self w1)) = false) as Hflag by done.
    destruct (resolve_sequential f w1 Hidle1 Hflag) as (w' & H & _). by exists w'.
Qed.

Lemma clear_then_resolve_witness :
  (resolve_log ex_session_schedule ex_session).*1 ≡ₚ [("maps", "4.2.2.2")]
  ∧ returned_cache (resolve ex_session_schedule ex_session)
      = Some (foldl apply_merge ∅ (resolve_log ex_session_schedule ex_session))
  ∧ cache (clear true (self ex_after)) = ∅.
Proof.
  destruct clear_then_resolve as (Hclear & Hrun & _).
  assert (idle ex_after) as Hidle.
  { split; [reflexivity |]. split; vm_compute; repeat constructor. }
  assert (∃ w', resolve ex_session_schedule ex_session
                = Returned w' {[ "maps" := Some {["7.7.7.7"]} ]}) as [w' H].
  { eexists. vm_compute. reflexivity. }
  destruct (Hrun ex_after ["maps"] ["4.2.2.2"] "google.com" 1%Z 3%Z
              ex_session_schedule w' _ Hidle H) as (Hperm & Hc & _).
  split; [exact Hperm |]. split; [rewrite H; simpl; f_equal |].
  apply (Hclear (self ex_after)).
Defined.

Example ex_session_cache :
  returned_cache (resolve ex_session_schedule ex_session)
    = Some {[ "maps" := Some {["7.7.7.7"]} ]}.
Proof. vm_compute. reflexivity. Qed.
